(** * Simple UART calculator (Zephyr sample): line assembler and evaluator

    A shallow embedding of [calc/src/main.c]:
    - [serial_cb], the interrupt callback that assembles received bytes
      into lines in [rx_buf] and posts them on [uart_msgq];
    - [perform_operation] and [eval_expression], the evaluator of
      [<int> <op> <int>] lines;
    - the body of the [while] loop of [main], which answers each line.

    Conventions.
    - A [char] is its integer value, a [Z] in 0..255; a C string literal
      is written [str "..."] and its array (with the terminator) [cstr "..."].
    - An [int] is 32 bits wide; [+], [-] and [*] on [int] wrap around
      ([wrap_int]).  [INT_MIN / -1] and [INT_MIN % -1] overflow and have no
      defined behaviour in C: they yield [None].
      The width of [long] depends on the target and is a parameter ([abi]).
    - A [char *] is the list of the bytes from the pointed byte to the end of
      the array it points into.  Reading through a pointer at the end of the
      array has no defined behaviour in C: such a read yields [None], and so
      does every computation that performs one.
    - The out-parameter [int *result] is passed in and returned next to the
      return code. *)

From Stdlib Require Import ZArith Lia Ascii String.
From stdpp Require Import base option list.

Local Open Scope Z_scope.

(** ** Characters and strings *)

Definition chr (a : ascii) : Z := Z.of_N (N_of_ascii a).

Definition str (s : string) : list Z := map chr (list_ascii_of_string s).

Definition NUL : Z := 0.

(** The array that holds the string literal [s]. *)
Definition cstr (s : string) : list Z := str s ++ [NUL].

Definition ch_plus : Z := Eval cbv in chr "+".
Definition ch_minus : Z := Eval cbv in chr "-".
Definition ch_star : Z := Eval cbv in chr "*".
Definition ch_slash : Z := Eval cbv in chr "/".
Definition ch_percent : Z := Eval cbv in chr "%".
Definition ch_space : Z := Eval cbv in chr " ".
Definition ch_zero : Z := Eval cbv in chr "0".
Definition ch_nine : Z := Eval cbv in chr "9".
Definition ch_cr : Z := 13.
Definition ch_lf : Z := 10.

(** [isspace] of <ctype.h> in the C locale: space, \t, \n, \v, \f, \r. *)
Definition isspace (c : Z) : bool :=
  (c =? ch_space) || ((9 <=? c) && (c <=? 13)).

Definition isdigit (c : Z) : bool := (ch_zero <=? c) && (c <=? ch_nine).

Definition digit_val (c : Z) : Z := c - ch_zero.

(** ** Integer types *)

Inductive abi := ILP32 | LP64.

Definition long_bits (m : abi) : Z :=
  match m with ILP32 => 32 | LP64 => 64 end.

Definition LONG_MAX (m : abi) : Z := 2 ^ (long_bits m - 1) - 1.
Definition LONG_MIN (m : abi) : Z := - 2 ^ (long_bits m - 1).

Definition INT_MAX : Z := 2147483647.
Definition INT_MIN : Z := -2147483648.

(** The value of a mathematical integer stored in an [int]. *)
Definition wrap_int (z : Z) : Z := (z + 2 ^ 31) mod 2 ^ 32 - 2 ^ 31.

Definition in_int (z : Z) : Prop := INT_MIN <= z <= INT_MAX.

(** The error enum. *)
Definition ERR_NONE : Z := 0.
Definition ERR_INVALID_EXPR : Z := -1.
Definition ERR_ZERO_DIV : Z := -2.

(** ** The C library functions the program calls *)

(** [strlen]: the number of bytes before the first NUL. *)
Fixpoint strlen (s : list Z) : option Z :=
  match s with
  | [] => None
  | c :: s' => if c =? NUL then Some 0 else n ← strlen s'; Some (n + 1)
  end.

(** [while (isspace( *p )) p++;] *)
Fixpoint skip_space (p : list Z) : option (list Z) :=
  match p with
  | [] => None
  | c :: p' => if isspace c then skip_space p' else Some p
  end.

(** The digit loop of [strtol] in base 10: the value read so far is [acc]. *)
Fixpoint scan_digits (acc : Z) (p : list Z) : option (Z * list Z) :=
  match p with
  | [] => None
  | c :: p' =>
      if isdigit c then scan_digits (acc * 10 + digit_val c) p'
      else Some (acc, p)
  end.

(** A value outside the range of [long] is reported as the nearest bound. *)
Definition clamp_long (m : abi) (v : Z) : Z :=
  Z.max (LONG_MIN m) (Z.min (LONG_MAX m) v).

(** [strtol(nptr, &endptr, 10)], as ISO C specifies it: white space is
    skipped, then an optional sign, then the longest run of digits; when there
    is no digit the value is 0 and [endptr] is [nptr].  Returns the value and
    [endptr]. *)
Definition strtol (m : abi) (nptr : list Z) : option (Z * list Z) :=
  p ← skip_space nptr;
  match p with
  | [] => None
  | c :: p' =>
      let neg := c =? ch_minus in
      let q := if neg || (c =? ch_plus) then p' else p in
      match q with
      | [] => None
      | d :: _ =>
          if isdigit d then
            '(v, e) ← scan_digits 0 q;
            Some (clamp_long m (if neg then - v else v), e)
          else Some (0, nptr)
      end
  end.

(** ** The evaluator *)

(** The one quotient of two [int]s that is no [int]: for these operands
    [/] and [%] overflow. *)
Definition div_overflow (operand1 operand2 : Z) : bool :=
  (operand1 =? INT_MIN) && (operand2 =? -1).

(** [perform_operation operand1 operand2 operator result]: the return code
    and the value of [*result] afterwards; [None] where the division
    overflows, which the code does not guard against. *)
Definition perform_operation (operand1 operand2 operator result : Z)
  : option (Z * Z) :=
  if operator =? ch_plus then Some (ERR_NONE, wrap_int (operand1 + operand2))
  else if operator =? ch_minus then
    Some (ERR_NONE, wrap_int (operand1 - operand2))
  else if operator =? ch_star then
    Some (ERR_NONE, wrap_int (operand1 * operand2))
  else if operator =? ch_slash then
    if negb (operand2 =? 0) then
      if div_overflow operand1 operand2 then None
      else Some (ERR_NONE, wrap_int (Z.quot operand1 operand2))
    else Some (ERR_ZERO_DIV, result)
  else if operator =? ch_percent then
    if negb (operand2 =? 0) then
      if div_overflow operand1 operand2 then None
      else Some (ERR_NONE, wrap_int (Z.rem operand1 operand2))
    else Some (ERR_ZERO_DIV, result)
  else Some (ERR_INVALID_EXPR, result).

(** [eval_expression expr result]: the return code and the value of
    [*result] afterwards. *)
Definition eval_expression (m : abi) (expr : list Z) (result : Z)
  : option (Z * Z) :=
  (* parse first operand *)
  '(v1, endptr) ← strtol m expr;
  let operand1 := wrap_int v1 in
  n_end ← strlen endptr;
  n_expr ← strlen expr;
  if n_end =? n_expr then Some (ERR_INVALID_EXPR, result) else
  let expr := endptr in
  (* parse operator *)
  expr ← skip_space expr;
  operator ← head expr;
  let expr := tail expr in
  (* parse second operand *)
  '(v2, endptr) ← strtol m expr;
  let operand2 := wrap_int v2 in
  n_end ← strlen endptr;
  n_expr ← strlen expr;
  if n_end =? n_expr then Some (ERR_INVALID_EXPR, result) else
  let expr := endptr in
  (* check if there are any trailing characters *)
  expr ← skip_space expr;
  c ← head expr;
  if negb (c =? NUL) then Some (ERR_INVALID_EXPR, result) else
  (* perform the operation *)
  perform_operation operand1 operand2 operator result.


(** ** Lines, as the specification describes them *)

(** White space, and a non-empty run of decimal digits. *)
Definition whitespace (w : list Z) : Prop := forallb isspace w = true.

Definition digits (ds : list Z) : Prop :=
  ds <> [] /\ forallb isdigit ds = true.

(** The number a run of digits denotes, most significant digit first. *)
Fixpoint digits_value (ds : list Z) : Z :=
  match ds with
  | [] => 0
  | d :: ds' => digit_val d * 10 ^ Z.of_nat (length ds') + digits_value ds'
  end.

Inductive sign := NoSign | Plus | Minus.

Definition sign_chars (sg : sign) : list Z :=
  match sg with NoSign => [] | Plus => [ch_plus] | Minus => [ch_minus] end.

Definition signed (sg : sign) (v : Z) : Z :=
  match sg with Minus => - v | _ => v end.

(** A signed decimal numeral and the integer it denotes. *)
Definition numeral (sg : sign) (ds : list Z) : list Z := sign_chars sg ++ ds.

Definition numeral_value (sg : sign) (ds : list Z) : Z :=
  signed sg (digits_value ds).

(** The five operators. *)
Inductive operator := Add | Sub | Mul | Div | Mod.

Definition op_char (o : operator) : Z :=
  match o with
  | Add => ch_plus | Sub => ch_minus | Mul => ch_star
  | Div => ch_slash | Mod => ch_percent
  end.

Definition is_operator (c : Z) : Prop := exists o, c = op_char o.

(** Quotient truncated toward zero, from the quotient of the magnitudes. *)
Definition trunc_div (a b : Z) : Z := Z.sgn a * Z.sgn b * (Z.abs a / Z.abs b).

(** The result of [a o b] in 32-bit two's complement arithmetic. *)
Definition int_op (o : operator) (a b : Z) : Z :=
  match o with
  | Add => wrap_int (a + b)
  | Sub => wrap_int (a - b)
  | Mul => wrap_int (a * b)
  | Div => wrap_int (trunc_div a b)
  | Mod => wrap_int (a - b * trunc_div a b)
  end.

Definition divides (o : operator) : bool :=
  match o with Div | Mod => true | _ => false end.

(** A string without NUL. *)
Definition nonnul (l : list Z) : Prop := Forall (fun c => c <> NUL) l.

(** An array that holds a C string: there is a NUL at or after the pointed
    byte. *)
Definition terminated (p : list Z) : Prop := exists n, strlen p = Some n.

(** How a line fails: the first operand has no digit; or the operator is
    followed by no digit; or the operator is none of the five; or the second
    operand is followed by more than white space.  The operator is a
    character of the line, not its terminator. *)
Inductive malformed (m : abi) (expr : list Z) : Prop :=
| no_first_operand v :
    strtol m expr = Some (v, expr) -> malformed m expr
| no_second_operand v1 e1 op e2 v2 :
    strtol m expr = Some (v1, e1) -> skip_space e1 = Some (op :: e2) ->
    op <> NUL -> strtol m e2 = Some (v2, e2) -> malformed m expr
| unknown_operator v1 e1 op e2 :
    strtol m expr = Some (v1, e1) -> skip_space e1 = Some (op :: e2) ->
    op <> NUL -> ~ is_operator op -> malformed m expr
| trailing_characters v1 e1 op e2 v2 e3 c q :
    strtol m expr = Some (v1, e1) -> skip_space e1 = Some (op :: e2) ->
    op <> NUL -> strtol m e2 = Some (v2, e3) ->
    skip_space e3 = Some (c :: q) -> c <> NUL -> malformed m expr.

(** ** The evaluator on a well-formed line *)

(** [operand white-space operator white-space operand], with white space
    at both ends. *)
Definition expression (w1 n1 w2 : list Z) (op : Z) (w3 n2 w4 : list Z)
  : list Z :=
  w1 ++ n1 ++ w2 ++ op :: w3 ++ n2 ++ w4.

(** The operand [eval_expression] gets from a numeral: the value [strtol]
    reports, stored in an [int]. *)
Definition operand_of (m : abi) (sg : sign) (ds : list Z) : Z :=
  wrap_int (clamp_long m (numeral_value sg ds)).

(** An array that holds a single numeral, with or without white space around
    it, and ends with the terminator of the string. *)
Definition lone_operand (p : list Z) : Prop :=
  exists w1 sg ds w2,
    whitespace w1 /\ digits ds /\ whitespace w2
    /\ p = w1 ++ numeral sg ds ++ w2 ++ [NUL].

(** An array that holds a line of two numerals joined by one of the five
    operators; [overflow] tells whether the line is [INT_MIN / -1] or
    [INT_MIN % -1] once the operands are stored in [int]s. *)
Definition well_formed (m : abi) (p : list Z) (overflow : bool) : Prop :=
  exists w1 sg1 ds1 w2 o w3 sg2 ds2 w4 tl,
    (whitespace w1 /\ whitespace w2 /\ whitespace w3 /\ whitespace w4)
    /\ (digits ds1 /\ digits ds2)
    /\ p = expression w1 (numeral sg1 ds1) w2 (op_char o) w3
             (numeral sg2 ds2) w4 ++ NUL :: tl
    /\ overflow
       = divides o
         && div_overflow (operand_of m sg1 ds1) (operand_of m sg2 ds2).

(** ** Printing an integer: the [%d] of [sprintf] *)

(** The decimal digits of [n >= 0], without leading zeros; [fuel] bounds the
    number of digits. *)
Fixpoint udecimal (fuel : nat) (n : Z) : list Z :=
  match fuel with
  | O => []
  | S f =>
      (if n <? 10 then [] else udecimal f (n / 10)) ++ [ch_zero + n mod 10]
  end.

(** A number has at most [log2 n + 1] decimal digits. *)
Definition decimal_fuel (n : Z) : nat := S (Z.to_nat (Z.log2 n)).

Definition decimal (z : Z) : list Z :=
  if z <? 0 then ch_minus :: udecimal (decimal_fuel (- z)) (- z)
  else udecimal (decimal_fuel z) z.

Definition decimal_sign (z : Z) : sign := if z <? 0 then Minus else NoSign.

Definition decimal_digits (z : Z) : list Z :=
  udecimal (decimal_fuel (Z.abs z)) (Z.abs z).

(** ** The line assembler *)

Definition MSG_SIZE : Z := 32.

(** [K_MSGQ_DEFINE(uart_msgq, MSG_SIZE, 10, 4)]: at most 10 messages. *)
Definition MSGQ_MAX : nat := 10.

(** A write to [rx_buf]: a received byte, or the terminator of a line. *)
Inductive rx_write :=
| WriteData (idx : Z) (c : Z)
| WriteNul (idx : Z).

(** The state [serial_cb] works on: the receive buffer and its cursor, the
    message queue (oldest message first), the bytes [serial_cb] sent with
    [uart_poll_out] (oldest first), and the writes made to [rx_buf] so far
    (oldest first). *)
Record uart := Uart {
  rx_buf : list Z;
  rx_buf_pos : Z;
  uart_msgq : list (list Z);
  uart_out : list Z;
  rx_writes : list rx_write
}.

(** At start-up: statics are zeroed, nothing is queued, nothing was sent. *)
Definition uart_init : uart :=
  Uart (replicate (Z.to_nat MSG_SIZE) NUL) 0 [] [] [].

(** [buf[i] = v]; a write outside the array has no defined behaviour. *)
Definition store (buf : list Z) (i v : Z) : option (list Z) :=
  if (0 <=? i) && (i <? Z.of_nat (length buf))
  then Some (<[Z.to_nat i := v]> buf)
  else None.

(** [k_msgq_put(&uart_msgq, data, K_NO_WAIT)]: a copy of the [MSG_SIZE]
    bytes at [data] joins the queue, unless the queue is full; the caller
    ignores the return value. *)
Definition k_msgq_put (q : list (list Z)) (data : list Z) : list (list Z) :=
  if (length q <? MSGQ_MAX)%nat then q ++ [take (Z.to_nat MSG_SIZE) data]
  else q.

(** The conversion of an [int] to [size_t], which is as wide as [long]. *)
Definition to_size_t (m : abi) (z : Z) : Z := z mod 2 ^ long_bits m.

Definition is_terminator (c : Z) : bool := (c =? ch_lf) || (c =? ch_cr).

(** The body of the [while] loop of [serial_cb], for the byte [c] read from
    the FIFO. *)
Definition on_byte (m : abi) (c : Z) (st : uart) : option uart :=
  if is_terminator c then
    (* ignore line feed *)
    if rx_buf_pos st =? 0 then Some st
    else
      (* terminate string *)
      buf ← store (rx_buf st) (rx_buf_pos st) NUL;
      Some (Uart buf 0
              (k_msgq_put (uart_msgq st) buf)
              (uart_out st ++ [ch_cr; ch_lf])
              (rx_writes st ++ [WriteNul (rx_buf_pos st)]))
  else if to_size_t m (rx_buf_pos st) <? MSG_SIZE - 1 then
    buf ← store (rx_buf st) (rx_buf_pos st) c;
    Some (Uart buf (wrap_int (rx_buf_pos st + 1))
            (uart_msgq st)
            (uart_out st ++ [c])
            (rx_writes st ++ [WriteData (rx_buf_pos st) c]))
  else Some st.

(** [while (uart_fifo_read(uart_dev, &c, 1) == 1) ...] on the bytes [fifo]
    the FIFO holds. *)
Fixpoint rx_loop (m : abi) (fifo : list Z) (st : uart) : option uart :=
  match fifo with
  | [] => Some st
  | c :: fifo' => st' ← on_byte m c st; rx_loop m fifo' st'
  end.

(** [serial_cb]; [irq_update] and [rx_ready] are what [uart_irq_update] and
    [uart_irq_rx_ready] return. *)
Definition serial_cb (m : abi) (irq_update rx_ready : bool) (fifo : list Z)
    (st : uart) : option uart :=
  if negb irq_update then Some st
  else if negb rx_ready then Some st
  else rx_loop m fifo st.

(** The bytes [bs] arrive one at a time, one interrupt each. *)
Fixpoint feed (m : abi) (bs : list Z) (st : uart) : option uart :=
  match bs with
  | [] => Some st
  | c :: bs' => st' ← serial_cb m true true [c] st; feed m bs' st'
  end.

(** The states the assembler can be in: interrupts run [serial_cb], and
    between them [k_msgq_get] in [main] takes the oldest message. *)
Inductive reachable (m : abi) : uart -> Prop :=
| reachable_init : reachable m uart_init
| reachable_cb st st' irq_update rx_ready fifo :
    reachable m st ->
    serial_cb m irq_update rx_ready fifo st = Some st' ->
    reachable m st'
| reachable_get st msg q :
    reachable m st ->
    uart_msgq st = msg :: q ->
    reachable m (Uart (rx_buf st) (rx_buf_pos st) q (uart_out st)
                   (rx_writes st)).

(** A write that stays inside [rx_buf]: a data byte below the last index,
    the terminator anywhere. *)
Definition write_ok (w : rx_write) : Prop :=
  match w with
  | WriteData i _ => 0 <= i < MSG_SIZE - 1
  | WriteNul i => 0 <= i <= MSG_SIZE - 1
  end.

(** The invariant of the assembler. *)
Definition rx_inv (st : uart) : Prop :=
  length (rx_buf st) = Z.to_nat MSG_SIZE
  /\ 0 <= rx_buf_pos st <= MSG_SIZE - 1
  /\ Forall write_ok (rx_writes st).

(** What the driving loop relies on: a queued message fills the 32 bytes of
    [tx_buf] and holds a C string; the queue never holds more than 10. *)
Definition msg_ok (msg : list Z) : Prop :=
  length msg = Z.to_nat MSG_SIZE /\ terminated msg.

Definition queue_inv (st : uart) : Prop :=
  (length (uart_msgq st) <= MSGQ_MAX)%nat /\ Forall msg_ok (uart_msgq st).

(** Bytes none of which ends a line. *)
Definition data_bytes (bs : list Z) : Prop :=
  forallb (fun c => negb (is_terminator c)) bs = true.

(** The writes that store the bytes [bs] from index [start] on. *)
Fixpoint data_writes (start : Z) (bs : list Z) : list rx_write :=
  match bs with
  | [] => []
  | b :: bs' => WriteData start b :: data_writes (start + 1) bs'
  end.

(** The bytes arrive in bursts, one interrupt for each burst. *)
Fixpoint feed_bursts (m : abi) (bursts : list (list Z)) (st : uart)
  : option uart :=
  match bursts with
  | [] => Some st
  | fifo :: bursts' =>
      st' ← serial_cb m true true fifo st; feed_bursts m bursts' st'
  end.

(** The lines [ls], each followed by the terminators [ts], as one stream. *)
Definition typed (ls : list (list Z)) (ts : list Z) : list Z :=
  concat (map (fun l => l ++ ts) ls).

(** The messages posted for the lines [ls], the first over the buffer
    content [buf], each of the others over the message before. *)
Fixpoint posted (buf : list Z) (ls : list (list Z)) : list (list Z) :=
  match ls with
  | [] => []
  | l :: ls' =>
      let msg := l ++ NUL :: drop (S (length l)) buf in
      msg :: posted msg ls'
  end.

(** A line as it can be typed: 1 to 31 bytes, none of them a terminator. *)
Definition line_ok (l : list Z) : Prop :=
  data_bytes l /\ l <> [] /\ (length l <= 31)%nat.

(** What holds of [rx_buf] and of every message: 32 bytes, the last one
    NUL, none of them a line terminator. *)
Definition buf_ok (buf : list Z) : Prop :=
  length buf = Z.to_nat MSG_SIZE
  /\ last buf = Some NUL
  /\ data_bytes buf.

(** The C string at the start of an array: the bytes before the first NUL. *)
Fixpoint c_string (buf : list Z) : list Z :=
  match buf with
  | [] => []
  | c :: buf' => if c =? NUL then [] else c :: c_string buf'
  end.

(** ** The driving loop *)

(** [print_uart buf endl]: the bytes sent. *)
Definition print_uart (buf : list Z) (endl : Z) : option (list Z) :=
  msg_len ← strlen buf;
  Some (take (Z.to_nat msg_len) buf
          ++ (if negb (endl =? 0) then [ch_cr; ch_lf] else [])).

(** [sprintf(buf, "Result: %d", result)]: the array afterwards. *)
Definition sprintf_result (buf : list Z) (result : Z) : option (list Z) :=
  let text := str "Result: " ++ decimal result ++ [NUL] in
  if (length text <=? length buf)%nat
  then Some (text ++ drop (length text) buf)
  else None.

(** One turn of the [while] loop of [main] on the message [tx_buf] that
    [k_msgq_get] delivered: the bytes sent. *)
Definition main_iteration (m : abi) (tx_buf : list Z) : option (list Z) :=
  let result := 0 in
  '(rc, result) ← eval_expression m tx_buf result;
  if rc =? ERR_NONE then
    tx_buf ← sprintf_result tx_buf result;
    print_uart tx_buf 1
  else
    '(rc, result) ← eval_expression m tx_buf result;
    if rc =? ERR_ZERO_DIV then print_uart (cstr "Division by zero!") 1
    else print_uart (cstr "Invalid expression!") 1.

(** The loop on the messages [msgs], in the order they are delivered. *)
Fixpoint main_loop (m : abi) (msgs : list (list Z)) : option (list Z) :=
  match msgs with
  | [] => Some []
  | tx_buf :: msgs' =>
      out ← main_iteration m tx_buf;
      outs ← main_loop m msgs';
      Some (out ++ outs)
  end.

(** A message as the assembler posts it on a fresh buffer. *)
Definition fresh_msg (s : string) : list Z :=
  str s ++ replicate (Z.to_nat MSG_SIZE - length (str s)) NUL.

(** ** The driving loop with a single evaluation *)

(** The three-way outcome of the specification. *)
Inductive outcome :=
| Success (v : Z)
| DivisionByZero
| InvalidExpression.

(** One evaluation, its return code turned into an outcome. *)
Definition evaluate (m : abi) (line : list Z) : option outcome :=
  '(rc, v) ← eval_expression m line 0;
  Some (if rc =? ERR_NONE then Success v
        else if rc =? ERR_ZERO_DIV then DivisionByZero
        else InvalidExpression).

(** The line sent for an outcome. *)
Definition response (o : outcome) : list Z :=
  match o with
  | Success v => str "Result: " ++ decimal v
  | DivisionByZero => str "Division by zero!"
  | InvalidExpression => str "Invalid expression!"
  end ++ [ch_cr; ch_lf].

Definition single_iteration (m : abi) (line : list Z) : option (list Z) :=
  o ← evaluate m line; Some (response o).

Fixpoint single_loop (m : abi) (msgs : list (list Z)) : option (list Z) :=
  match msgs with
  | [] => Some []
  | line :: msgs' =>
      out ← single_iteration m line;
      outs ← single_loop m msgs';
      Some (out ++ outs)
  end.

(** * Properties *)

Example eval_5_plus_3 :
  eval_expression ILP32 (cstr "5 + 3") 0 = Some (ERR_NONE, 8).
Proof. reflexivity. Qed.

Example eval_div_zero :
  eval_expression ILP32 (cstr "5 / 0") 0 = Some (ERR_ZERO_DIV, 0).
Proof. reflexivity. Qed.

Example eval_neg_rem :
  eval_expression LP64 (cstr "-7 % 2") 0 = Some (ERR_NONE, -1).
Proof. reflexivity. Qed.

Example eval_lone_operand :
  eval_expression ILP32 (cstr "5") 0 = None.
Proof. reflexivity. Qed.

(** ** Facts about characters *)

Lemma isdigit_range c : isdigit c = true <-> 48 <= c <= 57.
Proof. unfold isdigit, ch_zero, ch_nine. lia. Qed.

Lemma isspace_range c : isspace c = true <-> c = 32 \/ 9 <= c <= 13.
Proof. unfold isspace, ch_space. lia. Qed.

Lemma isdigit_not_space c : isdigit c = true -> isspace c = false.
Proof.
  rewrite isdigit_range. intros H.
  destruct (isspace c) eqn:E; [apply isspace_range in E; lia | done].
Qed.

Lemma isspace_not_digit c : isspace c = true -> isdigit c = false.
Proof.
  intros H. destruct (isdigit c) eqn:E; [|done].
  apply isdigit_not_space in E. congruence.
Qed.

Lemma op_char_class o :
  isdigit (op_char o) = false /\ isspace (op_char o) = false
  /\ op_char o <> NUL.
Proof. destruct o; repeat split; done. Qed.

Lemma digit_val_range c : isdigit c = true -> 0 <= digit_val c <= 9.
Proof. rewrite isdigit_range. unfold digit_val, ch_zero. lia. Qed.

(** ** Facts about the library functions *)

Lemma whitespace_nonnul w : whitespace w -> nonnul w.
Proof.
  unfold whitespace, nonnul. rewrite forallb_forall, Forall_forall.
  intros H c Hc%list_elem_of_In%H. apply isspace_range in Hc.
  unfold NUL. lia.
Qed.

Lemma digits_nonnul ds : digits ds -> nonnul ds.
Proof.
  intros [_ H]. unfold nonnul. rewrite forallb_forall in H.
  rewrite Forall_forall. intros c Hc%list_elem_of_In%H.
  apply isdigit_range in Hc. unfold NUL. lia.
Qed.

Lemma sign_chars_nonnul sg : nonnul (sign_chars sg).
Proof. destruct sg; repeat constructor; done. Qed.

Lemma strlen_nonnul l tl :
  nonnul l -> strlen (l ++ NUL :: tl) = Some (Z.of_nat (length l)).
Proof.
  induction 1 as [|c l Hc _ IH]; simpl; [done|].
  destruct (Z.eqb_spec c NUL); [done|].
  rewrite IH. simpl. f_equal. lia.
Qed.

Lemma skip_space_app w c p :
  whitespace w -> isspace c = false ->
  skip_space (w ++ c :: p) = Some (c :: p).
Proof.
  unfold whitespace. induction w as [|s w IH]; simpl; intros Hw Hc.
  - by rewrite Hc.
  - apply andb_prop in Hw as [-> Hw]. auto.
Qed.

Lemma digits_value_snoc ds d :
  digits_value (ds ++ [d]) = digits_value ds * 10 + digit_val d.
Proof.
  induction ds as [|x ds IH]; simpl; [lia|].
  rewrite IH, length_app. simpl.
  replace (Z.of_nat (length ds + 1)) with (Z.succ (Z.of_nat (length ds))) by lia.
  rewrite Z.pow_succ_r by lia. lia.
Qed.

Lemma scan_digits_app ds : forall acc c p,
  forallb isdigit ds = true -> isdigit c = false ->
  scan_digits acc (ds ++ c :: p)
  = Some (acc * 10 ^ Z.of_nat (length ds) + digits_value ds, c :: p).
Proof.
  induction ds as [|d ds IH]; simpl; intros acc c p Hds Hc.
  - rewrite Hc. do 2 f_equal. lia.
  - apply andb_prop in Hds as [-> Hds]. rewrite IH by done.
    do 2 f_equal.
    replace (Z.of_nat (S (length ds))) with (Z.succ (Z.of_nat (length ds))) by lia.
    rewrite Z.pow_succ_r by lia. lia.
Qed.

(** [strtol] reads a numeral that is followed by a character that is no
    digit, and stops right after it. *)
Lemma strtol_numeral m w sg ds c p :
  whitespace w -> digits ds -> isdigit c = false ->
  strtol m (w ++ numeral sg ds ++ c :: p)
  = Some (clamp_long m (numeral_value sg ds), c :: p).
Proof.
  intros Hw [Hne Hds] Hc. unfold strtol, numeral, numeral_value.
  destruct ds as [|d ds]; [done|]. clear Hne.
  simpl in Hds. apply andb_prop in Hds as [Hd Hds].
  pose proof (isdigit_not_space _ Hd) as Hsp.
  pose proof Hd as Hr%isdigit_range.
  destruct sg; simpl sign_chars; simpl app;
    rewrite skip_space_app by done; simpl.
  - destruct (Z.eqb_spec d ch_minus); [unfold ch_minus in *; lia|].
    destruct (Z.eqb_spec d ch_plus); [unfold ch_plus in *; lia|].
    simpl. rewrite Hd, scan_digits_app by done. simpl. repeat f_equal; try lia.
  - rewrite Hd, scan_digits_app by done. simpl. repeat f_equal; try lia.
  - rewrite Hd, scan_digits_app by done. simpl. repeat f_equal; try lia.
Qed.

Lemma strlen_app_nonnul a b :
  nonnul a ->
  strlen (a ++ b) = n ← strlen b; Some (n + Z.of_nat (length a)).
Proof.
  induction 1 as [|c a Hc _ IH]; simpl.
  - destruct (strlen b); simpl; [f_equal; lia | done].
  - destruct (Z.eqb_spec c NUL); [done|]. rewrite IH.
    destruct (strlen b); simpl; [f_equal; lia | done].
Qed.

Lemma numeral_nonnul sg ds : digits ds -> nonnul (numeral sg ds).
Proof.
  intros H. apply Forall_app. split; [apply sign_chars_nonnul|].
  by apply digits_nonnul.
Qed.

Lemma numeral_length sg ds : digits ds -> (0 < length (numeral sg ds))%nat.
Proof.
  intros [Hne _]. unfold numeral. rewrite length_app.
  destruct ds; [done | simpl; lia].
Qed.

(** What follows a run of white space starts with a character that is no
    digit, when what follows the white space does. *)
Lemma after_space_nondigit w c p :
  whitespace w -> isdigit c = false ->
  exists c' p', w ++ c :: p = c' :: p' /\ isdigit c' = false.
Proof.
  intros Hw Hc. destruct w as [|s w]; simpl; [by eauto|].
  exists s, (w ++ c :: p). split; [done|].
  apply isspace_not_digit. unfold whitespace in Hw. simpl in Hw.
  by apply andb_prop in Hw as [? _].
Qed.

Lemma eval_expression_line m w1 sg1 ds1 w2 op w3 sg2 ds2 w4 tl r :
  whitespace w1 -> whitespace w2 -> whitespace w3 -> whitespace w4 ->
  digits ds1 -> digits ds2 ->
  isdigit op = false -> isspace op = false -> op <> NUL ->
  eval_expression m
    (expression w1 (numeral sg1 ds1) w2 op w3 (numeral sg2 ds2) w4
       ++ NUL :: tl) r
  = perform_operation (operand_of m sg1 ds1) (operand_of m sg2 ds2) op r.
Proof.
  intros Hw1 Hw2 Hw3 Hw4 Hd1 Hd2 Hop1 Hop2 Hop3.
  unfold expression, eval_expression.
  set (rest3 := w4 ++ NUL :: tl).
  set (rest2 := w3 ++ numeral sg2 ds2 ++ rest3).
  set (rest1 := w2 ++ op :: rest2).
  replace ((w1 ++ numeral sg1 ds1 ++ w2 ++ op :: w3 ++ numeral sg2 ds2 ++ w4)
             ++ NUL :: tl)
    with (w1 ++ numeral sg1 ds1 ++ rest1)
    by (unfold rest1, rest2, rest3; repeat (rewrite <- app_assoc; simpl); done).
  assert (Hl3 : strlen rest3 = Some (Z.of_nat (length w4)))
    by (apply strlen_nonnul; by apply whitespace_nonnul).
  assert (Hl2 : strlen rest2
                = Some (Z.of_nat (length w4)
                        + Z.of_nat (length (w3 ++ numeral sg2 ds2)))).
  { unfold rest2. rewrite (app_assoc w3), strlen_app_nonnul, Hl3; [done|].
    apply Forall_app; split; [by apply whitespace_nonnul|by apply numeral_nonnul]. }
  assert (exists n1, strlen rest1 = Some n1) as [n1 Hl1].
  { unfold rest1. change (op :: rest2) with ([op] ++ rest2).
    rewrite app_assoc, strlen_app_nonnul, Hl2; [by eexists|].
    apply Forall_app; split; [by apply whitespace_nonnul|by repeat constructor]. }
  pose proof (numeral_length sg1 ds1 Hd1) as Hn1.
  pose proof (numeral_length sg2 ds2 Hd2) as Hn2.
  set (whole := w1 ++ numeral sg1 ds1 ++ rest1).
  assert (Hl0 : strlen whole
                = Some (n1 + Z.of_nat (length (w1 ++ numeral sg1 ds1)))).
  { unfold whole. rewrite (app_assoc w1), strlen_app_nonnul, Hl1; [done|].
    apply Forall_app; split; [by apply whitespace_nonnul|by apply numeral_nonnul]. }
  assert (Hs1 : strtol m whole
                = Some (clamp_long m (numeral_value sg1 ds1), rest1)).
  { destruct (after_space_nondigit w2 op rest2 Hw2 Hop1) as (c1 & p1 & E1 & Hc1).
    unfold whole, rest1. rewrite E1. by apply strtol_numeral. }
  assert (Hk1 : skip_space rest1 = Some (op :: rest2))
    by (by apply skip_space_app).
  assert (Hs2 : strtol m rest2
                = Some (clamp_long m (numeral_value sg2 ds2), rest3)).
  { assert (isdigit NUL = false) as HN by done.
    destruct (after_space_nondigit w4 NUL tl Hw4 HN) as (c3 & p3 & E3 & Hc3).
    unfold rest2, rest3. rewrite E3. by apply strtol_numeral. }
  assert (Hk3 : skip_space rest3 = Some (NUL :: tl))
    by (by apply skip_space_app).
  clearbody whole rest1 rest2 rest3.
  rewrite Hs1. simpl. rewrite Hl1. simpl. rewrite Hl0. simpl.
  destruct (Z.eqb_spec n1 (n1 + Z.of_nat (length (w1 ++ numeral sg1 ds1))));
    [rewrite length_app in *; lia|].
  rewrite Hk1. simpl. rewrite Hs2. simpl. rewrite Hl3. simpl.
  rewrite Hl2. simpl.
  destruct (Z.eqb_spec (Z.of_nat (length w4))
              (Z.of_nat (length w4) + Z.of_nat (length (w3 ++ numeral sg2 ds2))));
    [rewrite length_app in *; lia|].
  rewrite Hk3. simpl. done.
Qed.

(** ** Printing an integer *)

Example decimal_min : decimal INT_MIN = str "-2147483648".
Proof. reflexivity. Qed.

Example decimal_zero : decimal 0 = str "0".
Proof. reflexivity. Qed.

Lemma udecimal_digits fuel : forall n,
  (0 < fuel)%nat -> 0 <= n < 10 ^ Z.of_nat fuel ->
  digits (udecimal fuel n) /\ digits_value (udecimal fuel n) = n.
Proof.
  induction fuel as [|f IH]; intros n Hf Hn.
  - lia.
  - simpl udecimal.
    assert (Hd : isdigit (ch_zero + n mod 10) = true)
      by (apply isdigit_range; unfold ch_zero; pose proof (Z.mod_pos_bound n 10); lia).
    destruct (Z.ltb_spec n 10) as [Hlt|Hge].
    + cbn [app forallb digits_value length]. split.
      * split; [done|]. cbn [forallb]. by rewrite Hd.
      * unfold digit_val. rewrite Z.mod_small by lia. simpl. lia.
    + assert (Hq : 0 <= n / 10 < 10 ^ Z.of_nat f).
      { split; [apply Z.div_pos; lia|].
        apply Z.div_lt_upper_bound; [lia|].
        rewrite Nat2Z.inj_succ, Z.pow_succ_r in Hn by lia. lia. }
      assert (Hf' : (0 < f)%nat).
      { destruct f; [|lia]. assert (1 <= n / 10) by (apply Z.div_le_lower_bound; lia).
        simpl in Hq. lia. }
      destruct (IH _ Hf' Hq) as [[Hne Hall] Hv].
      split; [split|].
      * by destruct (udecimal f (n / 10)).
      * rewrite forallb_app, Hall. cbn [forallb]. by rewrite Hd.
      * rewrite digits_value_snoc, Hv. unfold digit_val.
        pose proof (Z.div_mod n 10). lia.
Qed.

Lemma decimal_fuel_enough n : 0 <= n -> n < 10 ^ Z.of_nat (decimal_fuel n).
Proof.
  intros Hn. unfold decimal_fuel.
  rewrite Nat2Z.inj_succ, Z2Nat.id by apply Z.log2_nonneg.
  destruct (Z.eq_dec n 0) as [->|Hz]; [done|].
  pose proof (Z.log2_spec n ltac:(lia)) as [_ Hup].
  eapply Z.lt_le_trans; [exact Hup|].
  apply Z.pow_le_mono_l. lia.
Qed.

(** [decimal z] is a numeral, and it denotes [z]. *)
Lemma decimal_numeral z :
  decimal z = numeral (decimal_sign z) (decimal_digits z)
  /\ digits (decimal_digits z)
  /\ numeral_value (decimal_sign z) (decimal_digits z) = z.
Proof.
  unfold decimal, decimal_sign, decimal_digits, numeral, numeral_value.
  destruct (udecimal_digits (decimal_fuel (Z.abs z)) (Z.abs z)) as [Hd Hv].
  { unfold decimal_fuel. lia. }
  { split; [lia|]. apply decimal_fuel_enough. lia. }
  destruct (Z.ltb_spec z 0).
  - rewrite Z.abs_neq in * by lia. cbn [sign_chars app signed].
    rewrite Hv. split; [done|]. split; [done|lia].
  - rewrite Z.abs_eq in * by lia. cbn [sign_chars app signed].
    by rewrite Hv.
Qed.

(** ** Arithmetic on [int] *)

Lemma wrap_int_id z : in_int z -> wrap_int z = z.
Proof.
  unfold in_int, INT_MIN, INT_MAX, wrap_int. intros H.
  rewrite Z.mod_small; lia.
Qed.

Lemma wrap_int_range z : in_int (wrap_int z).
Proof.
  unfold in_int, INT_MIN, INT_MAX, wrap_int.
  pose proof (Z.mod_pos_bound (z + 2 ^ 31) (2 ^ 32)). lia.
Qed.

Lemma clamp_long_id m z : in_int z -> clamp_long m z = z.
Proof.
  unfold in_int, INT_MIN, INT_MAX, clamp_long, LONG_MIN, LONG_MAX.
  destruct m; simpl; lia.
Qed.

Lemma operand_of_in_int m sg ds :
  in_int (numeral_value sg ds) -> operand_of m sg ds = numeral_value sg ds.
Proof.
  intros H. unfold operand_of. by rewrite clamp_long_id, wrap_int_id.
Qed.

(** C's [/] is the quotient of the magnitudes with the sign of the product,
    and [%] is what it leaves. *)
Lemma quot_trunc_div a b : b <> 0 -> Z.quot a b = trunc_div a b.
Proof. intros Hb. unfold trunc_div. by apply Z.quot_div. Qed.

Lemma rem_trunc_div a b : b <> 0 -> Z.rem a b = a - b * trunc_div a b.
Proof.
  intros Hb. rewrite <- quot_trunc_div by done.
  pose proof (Z.quot_rem' a b). lia.
Qed.

(** The remainder is smaller than the divisor and has the sign of the
    dividend. *)
Lemma trunc_rem_sign a b :
  b <> 0 ->
  let r := a - b * trunc_div a b in
  Z.abs r < Z.abs b /\ (0 <= a -> 0 <= r) /\ (a <= 0 -> r <= 0).
Proof.
  intros Hb r. subst r. rewrite <- rem_trunc_div by done.
  pose proof (Z.rem_abs a b Hb).
  repeat split.
  - by apply Z.rem_bound_abs.
  - intros Ha. apply Z.rem_nonneg; lia.
  - intros Ha. apply Z.rem_nonpos; lia.
Qed.

Lemma div_overflow_false a b :
  div_overflow a b = false <-> ~ (a = INT_MIN /\ b = -1).
Proof.
  unfold div_overflow.
  destruct (Z.eqb_spec a INT_MIN), (Z.eqb_spec b (-1)); simpl; split;
    try done; tauto.
Qed.

Lemma perform_operation_op o a b r :
  (divides o = true -> b <> 0) ->
  (divides o = true -> ~ (a = INT_MIN /\ b = -1)) ->
  perform_operation a b (op_char o) r = Some (ERR_NONE, int_op o a b).
Proof.
  intros Hb Hov. unfold perform_operation.
  destruct o; simpl; try done.
  - specialize (Hb eq_refl). specialize (Hov eq_refl).
    apply div_overflow_false in Hov. rewrite Hov.
    destruct (Z.eqb_spec b 0); [done|]. simpl.
    by rewrite quot_trunc_div.
  - specialize (Hb eq_refl). specialize (Hov eq_refl).
    apply div_overflow_false in Hov. rewrite Hov.
    destruct (Z.eqb_spec b 0); [done|]. simpl.
    by rewrite rem_trunc_div.
Qed.

(** ** The evaluator on [<a> <op> <b>] *)

(** On a line of two numerals whose values fit an [int], joined by one of
    the five operators with a space on each side, the evaluator succeeds and
    stores the result of the operation on the two values. *)
Lemma eval_expression_numerals m sg1 ds1 o sg2 ds2 tl r :
  digits ds1 -> digits ds2 ->
  in_int (numeral_value sg1 ds1) -> in_int (numeral_value sg2 ds2) ->
  (divides o = true -> numeral_value sg2 ds2 <> 0) ->
  (divides o = true ->
   ~ (numeral_value sg1 ds1 = INT_MIN /\ numeral_value sg2 ds2 = -1)) ->
  eval_expression m
    (numeral sg1 ds1 ++ ch_space :: op_char o :: ch_space :: numeral sg2 ds2
       ++ NUL :: tl) r
  = Some (ERR_NONE, int_op o (numeral_value sg1 ds1) (numeral_value sg2 ds2)).
Proof.
  intros Hd1 Hd2 Hr1 Hr2 Hz Hov.
  destruct (op_char_class o) as (Ho1 & Ho2 & Ho3).
  pose proof (eval_expression_line m [] sg1 ds1 [ch_space] (op_char o)
                [ch_space] sg2 ds2 [] tl r) as H.
  unfold expression in H. rewrite <- !app_assoc in H. simpl in H.
  rewrite <- !app_assoc in H. simpl in H.
  rewrite H by done.
  rewrite !operand_of_in_int by done.
  by rewrite perform_operation_op.
Qed.

Example eval_numerals_signs :
  eval_expression LP64 (cstr "+007 - -3") 0 = Some (ERR_NONE, 10).
Proof.
  apply (eval_expression_numerals LP64 Plus (str "007") Sub Minus (str "3") [] 0).
  - split; [discriminate | reflexivity].
  - split; [discriminate | reflexivity].
  - vm_compute; split; discriminate.
  - vm_compute; split; discriminate.
  - discriminate.
  - discriminate.
Qed.

(** C1 (as amended): on the line [<a> <op> <b>], where [a] and [b] are
    integers in the range of [int] written in decimal, [op] is one of
    [+ - * / %], [b] is not 0 under [/] and [%], and the line is not
    [INT_MIN / -1] or [INT_MIN % -1], [eval_expression] succeeds and stores
    [a op b] computed in 32-bit two's complement arithmetic; the quotient is
    truncated toward zero: what it leaves of [a] is smaller than [b] in
    magnitude and has the sign of [a], and that is the remainder. *)
Theorem eval_expression_exact m a o b tl r :
  in_int a -> in_int b -> (divides o = true -> b <> 0) ->
  (divides o = true -> ~ (a = INT_MIN /\ b = -1)) ->
  eval_expression m
    (decimal a ++ ch_space :: op_char o :: ch_space :: decimal b
       ++ NUL :: tl) r
  = Some (ERR_NONE, int_op o a b)
  /\ (divides o = true ->
      let rm := a - b * trunc_div a b in
      Z.abs rm < Z.abs b /\ (0 <= a -> 0 <= rm) /\ (a <= 0 -> rm <= 0)).
Proof.
  intros Ha Hb Hz Hov. split; [|intros Ho; by apply trunc_rem_sign, Hz].
  destruct (decimal_numeral a) as (-> & Hda & Hva).
  destruct (decimal_numeral b) as (-> & Hdb & Hvb).
  rewrite eval_expression_numerals; rewrite ?Hva, ?Hvb; done.
Qed.

Lemma eval_expression_exact_witness :
  eval_expression ILP32 (cstr "-7 % 2") 0 = Some (ERR_NONE, -1)
  /\ (divides Mod = true ->
      let rm := -7 - 2 * trunc_div (-7) 2 in
      Z.abs rm < Z.abs 2 /\ (0 <= -7 -> 0 <= rm) /\ (-7 <= 0 -> rm <= 0)).
Proof.
  apply (eval_expression_exact ILP32 (-7) Mod 2 [] 0).
  - vm_compute; split; discriminate.
  - vm_compute; split; discriminate.
  - discriminate.
  - intros _ [H _]. discriminate H.
Defined.

(** A number beyond the range of [long] is read as the nearest bound, so the
    result is not the wrapped sum: on a 32-bit [long], [2147483648 + 0]
    yields [2147483647]; on a 64-bit [long], [9223372036854775808 + 0]
    yields [-1].  And [-2147483648 / -1] overflows: the evaluation yields no
    result at all. *)
Lemma eval_expression_out_of_range :
  eval_expression ILP32
    (decimal 2147483648 ++ ch_space :: op_char Add :: ch_space :: decimal 0
       ++ [NUL]) 0
  <> Some (ERR_NONE, int_op Add 2147483648 0)
  /\ eval_expression LP64
       (decimal 9223372036854775808
          ++ ch_space :: op_char Add :: ch_space :: decimal 0 ++ [NUL]) 0
     <> Some (ERR_NONE, int_op Add 9223372036854775808 0)
  /\ eval_expression ILP32
       (decimal INT_MIN ++ ch_space :: op_char Div :: ch_space :: decimal (-1)
          ++ [NUL]) 0
     <> Some (ERR_NONE, int_op Div INT_MIN (-1)).
Proof. repeat split; vm_compute; discriminate. Qed.

Example eval_division_overflows :
  eval_expression ILP32 (cstr "-2147483648 / -1") 0 = None
  /\ eval_expression LP64 (cstr "-2147483648 % -1") 0 = None.
Proof. split; reflexivity. Qed.

Example eval_saturates_ilp32 :
  eval_expression ILP32 (cstr "2147483648 + 0") 0 = Some (ERR_NONE, 2147483647)
  /\ int_op Add 2147483648 0 = -2147483648.
Proof. split; reflexivity. Qed.

Example eval_saturates_lp64 :
  eval_expression LP64 (cstr "9223372036854775808 + 0") 0 = Some (ERR_NONE, -1)
  /\ int_op Add 9223372036854775808 0 = 0.
Proof. split; reflexivity. Qed.

(** C2: on a line of two numerals joined by [/] or [%], with any white
    space, whose second numeral denotes 0, [eval_expression] returns
    [ERR_ZERO_DIV], not [ERR_INVALID_EXPR]. *)
Theorem eval_expression_zero_div m w1 sg1 ds1 w2 o w3 sg2 ds2 w4 tl r :
  whitespace w1 -> whitespace w2 -> whitespace w3 -> whitespace w4 ->
  digits ds1 -> digits ds2 ->
  divides o = true -> numeral_value sg2 ds2 = 0 ->
  let line := expression w1 (numeral sg1 ds1) w2 (op_char o) w3
                (numeral sg2 ds2) w4 ++ NUL :: tl in
  eval_expression m line r = Some (ERR_ZERO_DIV, r)
  /\ eval_expression m line r <> Some (ERR_INVALID_EXPR, r).
Proof.
  intros Hw1 Hw2 Hw3 Hw4 Hd1 Hd2 Ho Hz line.
  destruct (op_char_class o) as (Ho1 & Ho2 & Ho3).
  assert (E : eval_expression m line r = Some (ERR_ZERO_DIV, r)).
  { unfold line. rewrite eval_expression_line by done.
    unfold operand_of at 2. rewrite Hz.
    replace (wrap_int (clamp_long m 0)) with 0 by (by destruct m).
    by destruct o. }
  split; [done|]. rewrite E. discriminate.
Qed.

Lemma eval_expression_zero_div_witness :
  (eval_expression ILP32 (cstr "5 / 0") 7 = Some (ERR_ZERO_DIV, 7)
   /\ eval_expression ILP32 (cstr "5 / 0") 7 <> Some (ERR_INVALID_EXPR, 7))
  /\ (eval_expression ILP32 (cstr "5 % 0") 7 = Some (ERR_ZERO_DIV, 7)
      /\ eval_expression ILP32 (cstr "5 % 0") 7 <> Some (ERR_INVALID_EXPR, 7)).
Proof.
  split.
  - apply (eval_expression_zero_div ILP32 [] NoSign (str "5") [ch_space] Div
             [ch_space] NoSign (str "0") [] [] 7);
      first [reflexivity | split; [discriminate | reflexivity]].
  - apply (eval_expression_zero_div ILP32 [] NoSign (str "5") [ch_space] Mod
             [ch_space] NoSign (str "0") [] [] 7);
      first [reflexivity | split; [discriminate | reflexivity]].
Defined.

(** C8: white space before the first operand, around the operator and after
    the second operand changes nothing: the line evaluates as the line
    without it does. *)
Theorem eval_expression_whitespace m w1 sg1 ds1 w2 op w3 sg2 ds2 w4 tl r :
  whitespace w1 -> whitespace w2 -> whitespace w3 -> whitespace w4 ->
  digits ds1 -> digits ds2 ->
  isdigit op = false -> isspace op = false -> op <> NUL ->
  eval_expression m
    (expression w1 (numeral sg1 ds1) w2 op w3 (numeral sg2 ds2) w4
       ++ NUL :: tl) r
  = eval_expression m
      (expression [] (numeral sg1 ds1) [] op [] (numeral sg2 ds2) []
         ++ [NUL]) r.
Proof.
  intros. by rewrite !eval_expression_line.
Qed.

Lemma eval_expression_whitespace_witness :
  eval_expression ILP32 (cstr "5+3") 0 = Some (ERR_NONE, 8)
  /\ eval_expression ILP32 (cstr " 5 + 3 ") 0 = Some (ERR_NONE, 8)
  /\ eval_expression ILP32 (cstr "5   +   3") 0 = Some (ERR_NONE, 8).
Proof.
  split; [reflexivity|]. split.
  - etrans; [|exact (eq_refl : eval_expression ILP32 (cstr "5+3") 0 = _)].
    apply (eval_expression_whitespace ILP32 [ch_space] NoSign (str "5")
             [ch_space] ch_plus [ch_space] NoSign (str "3") [ch_space] [] 0);
      first [reflexivity | discriminate | split; [discriminate | reflexivity]].
  - etrans; [|exact (eq_refl : eval_expression ILP32 (cstr "5+3") 0 = _)].
    apply (eval_expression_whitespace ILP32 [] NoSign (str "5")
             (str "   ") ch_plus (str "   ") NoSign (str "3") [] [] 0);
      first [reflexivity | discriminate | split; [discriminate | reflexivity]].
Defined.

(** ** A line that ends after the first operand *)

(** C4: when the string in the array [expr] is a single numeral, with or
    without white space around it, and the array ends with the string,
    [eval_expression] takes the terminator for the operator, steps over it,
    and the second [strtol] reads past the end of the array. *)
Theorem eval_expression_lone_operand m w1 sg ds w2 r :
  whitespace w1 -> digits ds -> whitespace w2 ->
  let expr := w1 ++ numeral sg ds ++ w2 ++ [NUL] in
  (exists v, strtol m expr = Some (v, w2 ++ [NUL]))
  /\ skip_space (w2 ++ [NUL]) = Some [NUL]
  /\ strtol m (tail [NUL]) = None
  /\ eval_expression m expr r = None.
Proof.
  intros Hw1 Hd Hw2 expr. unfold expr, eval_expression.
  assert (isdigit NUL = false) as HN by done.
  destruct (after_space_nondigit w2 NUL [] Hw2 HN) as (c & p & E & Hc).
  assert (Hs : strtol m (w1 ++ numeral sg ds ++ w2 ++ [NUL])
               = Some (clamp_long m (numeral_value sg ds), w2 ++ [NUL])).
  { rewrite E. by apply strtol_numeral. }
  assert (Hl : strlen (w2 ++ [NUL]) = Some (Z.of_nat (length w2)))
    by (apply strlen_nonnul; by apply whitespace_nonnul).
  assert (Hl0 : strlen (w1 ++ numeral sg ds ++ w2 ++ [NUL])
                = Some (Z.of_nat (length w2)
                        + Z.of_nat (length (w1 ++ numeral sg ds)))).
  { rewrite (app_assoc w1), strlen_app_nonnul, Hl; [done|].
    apply Forall_app; split; [by apply whitespace_nonnul|by apply numeral_nonnul]. }
  assert (Hk : skip_space (w2 ++ [NUL]) = Some [NUL])
    by (by apply skip_space_app).
  pose proof (numeral_length sg ds Hd) as Hn.
  split; [by eexists|]. split; [done|]. split; [done|].
  rewrite Hs. simpl. rewrite Hl. simpl. rewrite Hl0. simpl.
  destruct (Z.eqb_spec (Z.of_nat (length w2))
              (Z.of_nat (length w2) + Z.of_nat (length (w1 ++ numeral sg ds))));
    [rewrite length_app in *; lia|].
  rewrite Hk. done.
Qed.

Lemma eval_expression_lone_operand_witness :
  eval_expression ILP32 (cstr "5") 0 = None
  /\ eval_expression ILP32 (cstr "5 ") 0 = None.
Proof.
  split.
  - apply (eval_expression_lone_operand ILP32 [] NoSign (str "5") [] 0);
      first [reflexivity | split; [discriminate | reflexivity]].
  - apply (eval_expression_lone_operand ILP32 [] NoSign (str "5") [ch_space] 0);
      first [reflexivity | split; [discriminate | reflexivity]].
Defined.

(** In the 32 bytes of [tx_buf] this happens for a line of 31 characters;
    after a shorter line the bytes that follow the terminator are read
    instead, here the zeros of a fresh buffer. *)
Example eval_lone_operand_full_buffer :
  let tx_buf := replicate 31 ch_nine ++ [NUL] in
  length tx_buf = Z.to_nat MSG_SIZE /\ eval_expression ILP32 tx_buf 0 = None.
Proof. split; reflexivity. Qed.

Example eval_lone_operand_fresh_buffer :
  let tx_buf := str "5" ++ replicate 31 NUL in
  length tx_buf = Z.to_nat MSG_SIZE
  /\ eval_expression ILP32 tx_buf 0 = Some (ERR_INVALID_EXPR, 0).
Proof. split; reflexivity. Qed.

(** ** The library functions on a C string *)

Lemma terminated_cons c p : terminated (c :: p) -> c <> NUL -> terminated p.
Proof.
  intros [n Hn] Hc. simpl in Hn. destruct (Z.eqb_spec c NUL); [done|].
  destruct (strlen p) as [k|] eqn:E; [by exists k | done].
Qed.

Lemma terminated_nonempty p : terminated p -> p <> [].
Proof. intros [n Hn] ->. done. Qed.

Lemma isspace_nonnul c : isspace c = true -> c <> NUL.
Proof. intros H%isspace_range. unfold NUL. lia. Qed.

Lemma isdigit_nonnul c : isdigit c = true -> c <> NUL.
Proof. intros H%isdigit_range. unfold NUL. lia. Qed.

(** On a C string, skipping white space stops inside the string. *)
Lemma skip_space_terminated p :
  terminated p ->
  exists c q, skip_space p = Some (c :: q) /\ terminated (c :: q)
              /\ isspace c = false.
Proof.
  induction p as [|c p IH]; intros Ht.
  - by apply terminated_nonempty in Ht.
  - simpl. destruct (isspace c) eqn:Hc.
    + apply IH. eapply terminated_cons; [done|]. by apply isspace_nonnul.
    + by exists c, p.
Qed.

Lemma scan_digits_terminated p : forall acc,
  terminated p ->
  exists v q, scan_digits acc p = Some (v, q) /\ terminated q.
Proof.
  induction p as [|c p IH]; intros acc Ht.
  - by apply terminated_nonempty in Ht.
  - simpl. destruct (isdigit c) eqn:Hc.
    + apply IH. eapply terminated_cons; [done|]. by apply isdigit_nonnul.
    + by exists acc, (c :: p).
Qed.

(** On a C string, [strtol] is defined and [endptr] points into the string. *)
Lemma strtol_terminated m p :
  terminated p -> exists v q, strtol m p = Some (v, q) /\ terminated q.
Proof.
  intros Ht. unfold strtol.
  destruct (skip_space_terminated p Ht) as (c & p' & -> & Ht' & _). simpl.
  set (q := if (c =? ch_minus) || (c =? ch_plus) then p' else c :: p').
  assert (Hq : terminated q).
  { unfold q. destruct ((c =? ch_minus) || (c =? ch_plus)) eqn:E; [|done].
    eapply terminated_cons; [done|]. unfold ch_minus, ch_plus, NUL in *. lia. }
  destruct q as [|d q'] eqn:Eq; [by apply terminated_nonempty in Hq|].
  destruct (isdigit d).
  - destruct (scan_digits_terminated (d :: q') 0 Hq) as (v & e & -> & He).
    simpl. by eauto.
  - by eauto.
Qed.

(** ** Return codes of the evaluator *)

Lemma perform_operation_cases a b op r :
  (exists v, perform_operation a b op r = Some (ERR_NONE, v) /\ in_int v
             /\ is_operator op)
  \/ (perform_operation a b op r = Some (ERR_ZERO_DIV, r) /\ b = 0
      /\ (op = ch_slash \/ op = ch_percent))
  \/ (perform_operation a b op r = Some (ERR_INVALID_EXPR, r)
      /\ ~ is_operator op)
  \/ (perform_operation a b op r = None
      /\ (op = ch_slash \/ op = ch_percent) /\ a = INT_MIN /\ b = -1).
Proof.
  unfold perform_operation.
  destruct (Z.eqb_spec op ch_plus) as [->|H1].
  { left. eexists. split; [done|]. split; [apply wrap_int_range|by exists Add]. }
  destruct (Z.eqb_spec op ch_minus) as [->|H2].
  { left. eexists. split; [done|]. split; [apply wrap_int_range|by exists Sub]. }
  destruct (Z.eqb_spec op ch_star) as [->|H3].
  { left. eexists. split; [done|]. split; [apply wrap_int_range|by exists Mul]. }
  assert (Hov : div_overflow a b = true -> a = INT_MIN /\ b = -1).
  { unfold div_overflow. intros [?%Z.eqb_eq ?%Z.eqb_eq]%andb_prop. done. }
  destruct (Z.eqb_spec op ch_slash) as [->|H4].
  { destruct (Z.eqb_spec b 0) as [->|Hb]; simpl.
    - right. left. by auto.
    - destruct (div_overflow a b); [right; right; right; by auto|].
      left. eexists. split; [done|]. split; [apply wrap_int_range|by exists Div]. }
  destruct (Z.eqb_spec op ch_percent) as [->|H5].
  { destruct (Z.eqb_spec b 0) as [->|Hb]; simpl.
    - right. left. by auto.
    - destruct (div_overflow a b); [right; right; right; by auto|].
      left. eexists. split; [done|]. split; [apply wrap_int_range|by exists Mod]. }
  right. right. left. split; [done|]. intros [[] ->]; done.
Qed.

(** Whatever [eval_expression] returns, it returns either
    [ERR_INVALID_EXPR], or what [perform_operation] returns. *)
Lemma eval_expression_cases m expr r rc r' :
  eval_expression m expr r = Some (rc, r') ->
  (rc = ERR_INVALID_EXPR /\ r' = r)
  \/ exists a b op, perform_operation a b op r = Some (rc, r').
Proof.
  unfold eval_expression. intros H.
  destruct (strtol m expr) as [[v1 e1]|]; simpl in H; [|done].
  destruct (strlen e1) as [n1|]; simpl in H; [|done].
  destruct (strlen expr) as [n0|]; simpl in H; [|done].
  destruct (n1 =? n0); [left; by inversion H|].
  destruct (skip_space e1) as [e1'|]; simpl in H; [|done].
  destruct (head e1') as [op|]; simpl in H; [|done].
  destruct (strtol m (tail e1')) as [[v2 e3]|]; simpl in H; [|done].
  destruct (strlen e3) as [n3|]; simpl in H; [|done].
  destruct (strlen (tail e1')) as [n2|]; simpl in H; [|done].
  destruct (n3 =? n2); [left; by inversion H|].
  destruct (skip_space e3) as [e3'|]; simpl in H; [|done].
  destruct (head e3') as [c|]; simpl in H; [|done].
  destruct (negb (c =? NUL)); [left; by inversion H|].
  right. by eauto.
Qed.

Lemma eval_expression_error_keeps m expr r rc r' :
  eval_expression m expr r = Some (rc, r') -> rc <> ERR_NONE -> r' = r.
Proof.
  intros [[_ ->]|(a & b & op & H)]%eval_expression_cases Hrc; [done|].
  destruct (perform_operation_cases a b op r)
    as [(v & E & _)|[(E & _)|[(E & _)|(E & _)]]]; congruence.
Qed.

(** C10: when [eval_expression] returns an error code, [*result] holds what
    it held before the call. *)
Theorem eval_expression_error_atomic m expr result rc result' :
  eval_expression m expr result = Some (rc, result') ->
  rc <> ERR_NONE ->
  result' = result /\ (rc = ERR_INVALID_EXPR \/ rc = ERR_ZERO_DIV).
Proof.
  intros H Hrc. split; [by eapply eval_expression_error_keeps|].
  apply eval_expression_cases in H as [[-> _]|(a & b & op & H)]; [by left|].
  destruct (perform_operation_cases a b op result)
    as [(v & E & _)|[(E & _)|[(E & _)|(E & _)]]]; rewrite E in H;
    inversion H; subst; by auto.
Qed.

Lemma eval_expression_error_atomic_witness :
  (7 = 7 /\ (ERR_ZERO_DIV = ERR_INVALID_EXPR \/ ERR_ZERO_DIV = ERR_ZERO_DIV))
  /\ (7 = 7
      /\ (ERR_INVALID_EXPR = ERR_INVALID_EXPR
          \/ ERR_INVALID_EXPR = ERR_ZERO_DIV)).
Proof.
  split.
  - apply (eval_expression_error_atomic ILP32 (cstr "5 / 0") 7 ERR_ZERO_DIV 7);
      [reflexivity | discriminate].
  - apply (eval_expression_error_atomic ILP32 (cstr "5 ^ 3") 7
             ERR_INVALID_EXPR 7); [reflexivity | discriminate].
Defined.

(** ** Rejected lines *)

Section Rejected.
Variable m : abi.
Variables (expr : list Z) (r : Z).
Hypothesis expr_string : terminated expr.

(** The first [strtol] converts nothing. *)
Lemma reject_first_operand v :
  strtol m expr = Some (v, expr) ->
  eval_expression m expr r = Some (ERR_INVALID_EXPR, r).
Proof.
  intros H. unfold eval_expression. rewrite H. simpl.
  destruct expr_string as [n ->]. simpl. by rewrite Z.eqb_refl.
Qed.

Variables (v1 : Z) (e1 : list Z) (op : Z) (e2 : list Z).
Hypothesis first_operand : strtol m expr = Some (v1, e1).
Hypothesis operator_read : skip_space e1 = Some (op :: e2).
Hypothesis operator_in_line : op <> NUL.

Lemma after_operator_terminated : terminated e1 /\ terminated e2.
Proof.
  destruct (strtol_terminated m expr expr_string) as (v & q & E & Hq).
  rewrite first_operand in E. inversion E; subst q. split; [done|].
  destruct (skip_space_terminated e1 Hq) as (c & q' & E' & Ht & _).
  rewrite operator_read in E'. inversion E'; subst.
  by eapply terminated_cons.
Qed.

(** The second [strtol] converts nothing. *)
Lemma reject_second_operand v2 :
  strtol m e2 = Some (v2, e2) ->
  eval_expression m expr r = Some (ERR_INVALID_EXPR, r).
Proof.
  intros H. destruct after_operator_terminated as [[n1 Hn1] [n2 Hn2]].
  destruct expr_string as [n0 Hn0].
  unfold eval_expression. rewrite first_operand. simpl.
  rewrite Hn1, Hn0. simpl. destruct (n1 =? n0); [done|].
  rewrite operator_read. simpl. rewrite H. simpl. rewrite Hn2. simpl.
  by rewrite Z.eqb_refl.
Qed.

(** The operator is none of the five. *)
Lemma reject_operator :
  ~ is_operator op ->
  eval_expression m expr r = Some (ERR_INVALID_EXPR, r).
Proof.
  intros Hop. destruct after_operator_terminated as [[n1 Hn1] Ht2].
  destruct expr_string as [n0 Hn0].
  destruct (strtol_terminated m e2 Ht2) as (v2 & e3 & Hs2 & Ht3).
  destruct Ht2 as [n2 Hn2]. pose proof Ht3 as [n3 Hn3].
  destruct (skip_space_terminated e3 Ht3) as (c & q & Hk & _ & _).
  unfold eval_expression. rewrite first_operand. simpl.
  rewrite Hn1, Hn0. simpl. destruct (n1 =? n0); [done|].
  rewrite operator_read. simpl. rewrite Hs2. simpl.
  rewrite Hn3, Hn2. simpl. destruct (n3 =? n2); [done|].
  rewrite Hk. simpl. destruct (negb (c =? NUL)); [done|].
  destruct (perform_operation_cases (wrap_int v1) (wrap_int v2) op r)
    as [(? & _ & _ & ?)|[(_ & _ & [-> | ->])|[(-> & _)|(_ & [-> | ->] & _)]]];
    [done| | |done| |].
  - destruct Hop. by exists Div.
  - destruct Hop. by exists Mod.
  - destruct Hop. by exists Div.
  - destruct Hop. by exists Mod.
Qed.

Variables (v2 : Z) (e3 : list Z).
Hypothesis second_operand : strtol m e2 = Some (v2, e3).

(** Something other than white space follows the second operand. *)
Lemma reject_trailing c q :
  skip_space e3 = Some (c :: q) -> c <> NUL ->
  eval_expression m expr r = Some (ERR_INVALID_EXPR, r).
Proof.
  intros Hk Hc. destruct after_operator_terminated as [[n1 Hn1] Ht2].
  destruct expr_string as [n0 Hn0].
  destruct (strtol_terminated m e2 Ht2) as (v & q' & E & Ht3).
  rewrite second_operand in E. inversion E; subst v q'.
  destruct Ht2 as [n2 Hn2]. destruct Ht3 as [n3 Hn3].
  unfold eval_expression. rewrite first_operand. simpl.
  rewrite Hn1, Hn0. simpl. destruct (n1 =? n0); [done|].
  rewrite operator_read. simpl. rewrite second_operand. simpl.
  rewrite Hn3, Hn2. simpl. destruct (n3 =? n2); [done|].
  rewrite Hk. simpl. by destruct (Z.eqb_spec c NUL).
Qed.
End Rejected.

(** C3: [eval_expression] returns [ERR_INVALID_EXPR] on a string whose first
    operand has no digit, whose second operand has no digit, whose operator
    is none of [+ - * / %], or that goes on after the second operand with
    something other than white space. *)
Theorem eval_expression_invalid m expr r :
  terminated expr -> malformed m expr ->
  eval_expression m expr r = Some (ERR_INVALID_EXPR, r).
Proof.
  intros Ht [v H|v1 e1 op e2 v2 H1 H2 H3 H4|v1 e1 op e2 H1 H2 H3 H4
            |v1 e1 op e2 v2 e3 c q H1 H2 H3 H4 H5 H6].
  - by eapply reject_first_operand.
  - by eapply reject_second_operand.
  - by eapply reject_operator.
  - by eapply reject_trailing.
Qed.

Lemma not_operator_caret : ~ is_operator (chr "^").
Proof. intros [[] H]; discriminate H. Qed.

Lemma eval_expression_invalid_witness :
  eval_expression ILP32 (cstr "abc + 1") 0 = Some (ERR_INVALID_EXPR, 0)
  /\ eval_expression ILP32 (cstr "5 + ") 0 = Some (ERR_INVALID_EXPR, 0)
  /\ eval_expression ILP32 (cstr "5 ^ 3") 0 = Some (ERR_INVALID_EXPR, 0)
  /\ eval_expression ILP32 (cstr "5 + 3 garbage") 0
     = Some (ERR_INVALID_EXPR, 0).
Proof.
  split; [|split; [|split]].
  - apply (eval_expression_invalid ILP32 (cstr "abc + 1") 0);
      [eexists; reflexivity|].
    apply (no_first_operand _ _ 0). reflexivity.
  - apply (eval_expression_invalid ILP32 (cstr "5 + ") 0);
      [eexists; reflexivity|].
    apply (no_second_operand _ _ 5 (cstr " + ") ch_plus (cstr " ") 0);
      first [reflexivity | discriminate].
  - apply (eval_expression_invalid ILP32 (cstr "5 ^ 3") 0);
      [eexists; reflexivity|].
    apply (unknown_operator _ _ 5 (cstr " ^ 3") (chr "^") (cstr " 3"));
      first [reflexivity | discriminate | exact not_operator_caret].
  - apply (eval_expression_invalid ILP32 (cstr "5 + 3 garbage") 0);
      [eexists; reflexivity|].
    apply (trailing_characters _ _ 5 (cstr " + 3 garbage") ch_plus
             (cstr " 3 garbage") 3 (cstr " garbage") (chr "g") (cstr "arbage"));
      first [reflexivity | discriminate].
Defined.

(** ** The line assembler *)

Lemma store_middle pre x post v :
  store (pre ++ x :: post) (Z.of_nat (length pre)) v = Some (pre ++ v :: post).
Proof.
  unfold store. rewrite length_app. simpl.
  destruct (Z.leb_spec 0 (Z.of_nat (length pre))); [|lia].
  destruct (Z.ltb_spec (Z.of_nat (length pre))
              (Z.of_nat (length pre + S (length post)))); [|lia].
  simpl. rewrite Nat2Z.id, insert_app_r_alt, Nat.sub_diag by lia. done.
Qed.

Lemma to_size_t_small m z : 0 <= z <= INT_MAX -> to_size_t m z = z.
Proof.
  unfold to_size_t, INT_MAX. intros H. apply Z.mod_small.
  destruct m; simpl; lia.
Qed.

(** A data byte below the last index is stored, echoed, and moves the
    cursor. *)
Lemma on_byte_data m c pre x post q out ws :
  is_terminator c = false -> (length pre < 31)%nat ->
  on_byte m c (Uart (pre ++ x :: post) (Z.of_nat (length pre)) q out ws)
  = Some (Uart (pre ++ c :: post) (Z.of_nat (length pre) + 1) q (out ++ [c])
            (ws ++ [WriteData (Z.of_nat (length pre)) c])).
Proof.
  intros Hc Hp. unfold on_byte. simpl. rewrite Hc.
  rewrite to_size_t_small by (unfold INT_MAX; lia).
  destruct (Z.ltb_spec (Z.of_nat (length pre)) (MSG_SIZE - 1));
    [|unfold MSG_SIZE in *; lia].
  rewrite store_middle. simpl.
  rewrite wrap_int_id by (unfold in_int, INT_MIN, INT_MAX; lia). done.
Qed.

(** A data byte that finds the cursor on the last index changes nothing: it
    is not stored and not echoed. *)
Lemma on_byte_full m c st :
  is_terminator c = false -> rx_buf_pos st = MSG_SIZE - 1 ->
  on_byte m c st = Some st.
Proof.
  intros Hc Hp. unfold on_byte. rewrite Hc, Hp.
  rewrite to_size_t_small by (unfold MSG_SIZE, INT_MAX; lia). done.
Qed.

(** A terminator that finds the cursor on 0 changes nothing. *)
Lemma on_byte_idle m c st :
  is_terminator c = true -> rx_buf_pos st = 0 -> on_byte m c st = Some st.
Proof. intros Hc Hp. unfold on_byte. by rewrite Hc, Hp. Qed.

(** A terminator after at least one byte closes the line and posts it. *)
Lemma on_byte_terminator m c pre x post q out ws :
  is_terminator c = true -> pre <> [] ->
  on_byte m c (Uart (pre ++ x :: post) (Z.of_nat (length pre)) q out ws)
  = Some (Uart (pre ++ NUL :: post) 0 (k_msgq_put q (pre ++ NUL :: post))
            (out ++ [ch_cr; ch_lf])
            (ws ++ [WriteNul (Z.of_nat (length pre))])).
Proof.
  intros Hc Hp. unfold on_byte. simpl. rewrite Hc.
  destruct (Z.eqb_spec (Z.of_nat (length pre)) 0) as [E|_];
    [destruct pre; [done | simpl in E; lia]|].
  by rewrite store_middle.
Qed.

Lemma rx_loop_app m bs1 bs2 st :
  rx_loop m (bs1 ++ bs2) st = st' ← rx_loop m bs1 st; rx_loop m bs2 st'.
Proof.
  revert st. induction bs1 as [|c bs1 IH]; intros st; simpl; [done|].
  destruct (on_byte m c st); simpl; [apply IH | done].
Qed.

(** One interrupt per byte, or one interrupt for all the bytes: the same. *)
Lemma serial_cb_byte m c st : serial_cb m true true [c] st = on_byte m c st.
Proof. unfold serial_cb. simpl. by destruct (on_byte m c st). Qed.

Lemma feed_rx_loop m bs st : feed m bs st = rx_loop m bs st.
Proof.
  revert st. induction bs as [|c bs IH]; intros st; [done|].
  cbn [feed rx_loop]. rewrite serial_cb_byte.
  destruct (on_byte m c st); simpl; [apply IH | done].
Qed.

(** A run of data bytes that fits below the last index is stored and echoed
    byte by byte. *)
Lemma rx_loop_data m bs : forall pre mid post q out ws,
  data_bytes bs -> length mid = length bs ->
  (length pre + length bs <= 31)%nat ->
  rx_loop m bs (Uart (pre ++ mid ++ post) (Z.of_nat (length pre)) q out ws)
  = Some (Uart (pre ++ bs ++ post) (Z.of_nat (length pre + length bs)) q
            (out ++ bs) (ws ++ data_writes (Z.of_nat (length pre)) bs)).
Proof.
  unfold data_bytes.
  induction bs as [|b bs IH]; intros pre mid post q out ws Hd Hm Hl.
  - destruct mid; [|done]. simpl. by rewrite Nat.add_0_r, !app_nil_r.
  - destruct mid as [|x mid]; [done|]. simpl in Hd, Hm, Hl.
    apply andb_prop in Hd as [Hb Hd]. apply negb_true_iff in Hb.
    cbn [rx_loop app]. rewrite on_byte_data by (done || lia). simpl.
    specialize (IH (pre ++ [b]) mid post q (out ++ [b])
                  (ws ++ [WriteData (Z.of_nat (length pre)) b]) Hd).
    rewrite length_app in IH. simpl in IH.
    replace (Z.of_nat (length pre + 1)) with (Z.of_nat (length pre) + 1) in IH
      by lia.
    rewrite <- !app_assoc in IH. simpl in IH.
    rewrite IH by lia. do 2 f_equal. lia.
Qed.

(** Data bytes that find the cursor on the last index are all dropped. *)
Lemma rx_loop_full m bs st :
  data_bytes bs -> rx_buf_pos st = MSG_SIZE - 1 -> rx_loop m bs st = Some st.
Proof.
  unfold data_bytes. induction bs as [|b bs IH]; intros Hd Hp; [done|].
  simpl in Hd. apply andb_prop in Hd as [Hb Hd]. apply negb_true_iff in Hb.
  simpl. rewrite on_byte_full by done. simpl. by apply IH.
Qed.

Lemma k_msgq_put_room q data :
  (length q < MSGQ_MAX)%nat -> length data = Z.to_nat MSG_SIZE ->
  k_msgq_put q data = q ++ [data].
Proof.
  intros Hq Hd. unfold k_msgq_put.
  destruct (Nat.ltb_spec (length q) MSGQ_MAX); [|lia].
  by rewrite take_ge by lia.
Qed.

(** When the queue is full the line is lost. *)
Lemma k_msgq_put_full q data :
  length q = MSGQ_MAX -> k_msgq_put q data = q.
Proof.
  intros Hq. unfold k_msgq_put.
  by destruct (Nat.ltb_spec (length q) MSGQ_MAX); [lia|].
Qed.

Lemma c_string_nonnul l tl : nonnul l -> c_string (l ++ NUL :: tl) = l.
Proof.
  induction 1 as [|c l Hc _ IH]; simpl; [done|].
  destruct (Z.eqb_spec c NUL); [done|]. by rewrite IH.
Qed.

(** A line of 1 to 31 data bytes and a terminator, from an empty buffer:
    the line is posted, terminated, over the old content of the buffer. *)
Lemma rx_loop_line m bs t buf q out ws :
  length buf = Z.to_nat MSG_SIZE -> (length q < MSGQ_MAX)%nat ->
  data_bytes bs -> bs <> [] -> (length bs <= 31)%nat ->
  is_terminator t = true ->
  let msg := bs ++ NUL :: drop (S (length bs)) buf in
  rx_loop m (bs ++ [t]) (Uart buf 0 q out ws)
  = Some (Uart msg 0 (q ++ [msg]) (out ++ bs ++ [ch_cr; ch_lf])
            (ws ++ data_writes 0 bs ++ [WriteNul (Z.of_nat (length bs))])).
Proof.
  intros Hb Hq Hd Hne Hl Ht msg.
  change (Z.to_nat MSG_SIZE) with 32%nat in Hb.
  assert (exists pre x post, buf = pre ++ x :: post /\ length pre = length bs)
    as (pre & x & post & -> & Hpre).
  { exists (take (length bs) buf).
    destruct (drop (length bs) buf) as [|x post] eqn:Edrop.
    - apply (f_equal length) in Edrop. rewrite length_drop in Edrop.
      simpl in Edrop. lia.
    - exists x, post. rewrite <- Edrop, take_drop, length_take. split; [done|lia]. }
  assert (Hmsg : msg = bs ++ NUL :: post).
  { unfold msg. rewrite <- Hpre. replace (S (length pre)) with (length pre + 1)%nat by lia.
    replace (pre ++ x :: post) with ((pre ++ [x]) ++ post)
      by (by rewrite <- app_assoc).
    rewrite drop_app_length'; [done|]. rewrite length_app. simpl. lia. }
  rewrite length_app in Hb. simpl in Hb.
  rewrite Hmsg, rx_loop_app.
  pose proof (rx_loop_data m bs [] pre (x :: post) q out ws Hd) as H.
  simpl in H. change (Z.of_nat 0) with 0 in H. rewrite H by lia. simpl.
  rewrite on_byte_terminator by done. simpl.
  rewrite k_msgq_put_room; [| done |].
  - by rewrite <- !app_assoc.
  - rewrite length_app. simpl. change (Z.to_nat MSG_SIZE) with 32%nat. lia.
Qed.

(** A message is posted only by a terminator that finds the cursor off 0,
    that is, after at least one byte of the line. *)
Lemma on_byte_posts m c st st' :
  on_byte m c st = Some st' -> uart_msgq st' <> uart_msgq st ->
  is_terminator c = true /\ rx_buf_pos st <> 0.
Proof.
  unfold on_byte. destruct (is_terminator c).
  - destruct (Z.eqb_spec (rx_buf_pos st) 0); [by intros [= <-]|done].
  - destruct (to_size_t m (rx_buf_pos st) <? MSG_SIZE - 1);
      [|by intros [= <-]].
    destruct (store (rx_buf st) (rx_buf_pos st) c); cbn [mbind option_bind];
      [|done].
    by intros [= <-].
Qed.

(** C5: the bytes of ["12+3\r\n"], one interrupt each, on an empty buffer
    (cursor 0) and a queue with room: one message is posted, it holds the
    string ["12+3"], and the line feed that follows the carriage return
    finds the cursor on 0 and is ignored.  In any state, a CR or an LF that
    finds the cursor on 0 leaves the whole state as it is, and a message is
    posted only by a terminator that finds the cursor off 0: no empty line
    is ever posted. *)
Theorem feed_crlf_line m buf q out ws :
  length buf = Z.to_nat MSG_SIZE -> (length q < MSGQ_MAX)%nat ->
  let msg := str "12+3" ++ NUL :: drop 5 buf in
  feed m (str "12+3" ++ [ch_cr; ch_lf]) (Uart buf 0 q out ws)
  = Some (Uart msg 0 (q ++ [msg]) (out ++ str "12+3" ++ [ch_cr; ch_lf])
            (ws ++ data_writes 0 (str "12+3") ++ [WriteNul 4]))
  /\ c_string msg = str "12+3"
  /\ (forall t st,
        is_terminator t = true -> rx_buf_pos st = 0 ->
        on_byte m t st = Some st)
  /\ (forall c st st',
        on_byte m c st = Some st' -> uart_msgq st' <> uart_msgq st ->
        is_terminator c = true /\ rx_buf_pos st <> 0).
Proof.
  intros Hb Hq msg. split; [|split; [|split]].
  - rewrite feed_rx_loop.
    change (str "12+3" ++ [ch_cr; ch_lf])
      with ((str "12+3" ++ [ch_cr]) ++ [ch_lf]).
    rewrite rx_loop_app.
    rewrite (rx_loop_line m (str "12+3") ch_cr buf q out ws);
      [| done | done | reflexivity | discriminate | simpl; lia | reflexivity].
    cbn [mbind option_bind rx_loop]. by rewrite on_byte_idle.
  - apply c_string_nonnul. by repeat constructor.
  - intros t st Ht Hp. by apply on_byte_idle.
  - intros c st st'. apply on_byte_posts.
Qed.

Lemma feed_crlf_line_witness :
  let msg := str "12+3" ++ replicate 28 NUL in
  feed ILP32 (str "12+3" ++ [ch_cr; ch_lf]) uart_init
  = Some (Uart msg 0 [msg] (str "12+3" ++ [ch_cr; ch_lf])
            (data_writes 0 (str "12+3") ++ [WriteNul 4]))
  /\ c_string msg = str "12+3"
  /\ (forall t st,
        is_terminator t = true -> rx_buf_pos st = 0 ->
        on_byte ILP32 t st = Some st)
  /\ (forall c st st',
        on_byte ILP32 c st = Some st' -> uart_msgq st' <> uart_msgq st ->
        is_terminator c = true /\ rx_buf_pos st <> 0).
Proof.
  apply (feed_crlf_line ILP32 (replicate 32 NUL) [] [] []).
  - reflexivity.
  - unfold MSGQ_MAX. simpl. lia.
Defined.

Example feed_leading_terminators :
  feed ILP32 ([ch_cr; ch_lf; ch_lf] ++ str "12+3" ++ [ch_cr; ch_lf]) uart_init
  = feed ILP32 (str "12+3" ++ [ch_cr; ch_lf]) uart_init.
Proof. reflexivity. Qed.

Lemma data_bytes_app bs1 bs2 :
  data_bytes (bs1 ++ bs2) <-> data_bytes bs1 /\ data_bytes bs2.
Proof.
  unfold data_bytes. rewrite forallb_app. apply andb_true_iff.
Qed.

(** C6: 31 or more data bytes (40, say) and a terminator, one interrupt
    each, on an empty buffer and a queue with room: one message is posted,
    made of the first 31 bytes and the terminating NUL; only these 31 bytes
    are echoed; a data byte that arrives with the cursor on 31 leaves the
    whole state as it is. *)
Theorem feed_overlong_line m bs t buf q out ws :
  length buf = Z.to_nat MSG_SIZE -> (length q < MSGQ_MAX)%nat ->
  data_bytes bs -> (31 <= length bs)%nat -> is_terminator t = true ->
  let msg := take 31 bs ++ [NUL] in
  feed m (bs ++ [t]) (Uart buf 0 q out ws)
  = Some (Uart msg 0 (q ++ [msg]) (out ++ take 31 bs ++ [ch_cr; ch_lf])
            (ws ++ data_writes 0 (take 31 bs) ++ [WriteNul 31]))
  /\ length (take 31 bs) = 31%nat
  /\ forall c st,
       is_terminator c = false -> rx_buf_pos st = MSG_SIZE - 1 ->
       on_byte m c st = Some st.
Proof.
  intros Hb Hq Hd Hl Ht msg.
  change (Z.to_nat MSG_SIZE) with 32%nat in Hb.
  assert (Hl31 : length (take 31 bs) = 31%nat) by (rewrite length_take; lia).
  split; [|split; [done | intros; by apply on_byte_full]].
  rewrite <- (take_drop 31 bs) in Hd. apply data_bytes_app in Hd as [Hd1 Hd2].
  assert (exists pre x, buf = pre ++ [x] /\ length pre = 31%nat)
    as (pre & x & -> & Hpre).
  { exists (take 31 buf). destruct (drop 31 buf) as [|x post] eqn:Edrop.
    - apply (f_equal length) in Edrop. rewrite length_drop in Edrop.
      simpl in Edrop. lia.
    - assert (post = []) as ->.
      { apply (f_equal length) in Edrop. rewrite length_drop in Edrop.
        simpl in Edrop. destruct post; [done | simpl in Edrop; lia]. }
      exists x. rewrite <- Edrop, take_drop, length_take. split; [done|lia]. }
  rewrite feed_rx_loop.
  rewrite <- (take_drop 31 bs) at 1. rewrite <- app_assoc, rx_loop_app.
  pose proof (rx_loop_data m (take 31 bs) [] pre [x] q out ws Hd1) as H.
  simpl in H. change (Z.of_nat 0) with 0 in H. rewrite H by lia. simpl.
  rewrite rx_loop_app, rx_loop_full by (done || by rewrite Hl31). simpl.
  rewrite on_byte_terminator by (done || by destruct (take 31 bs)).
  simpl. rewrite k_msgq_put_room; [| done |].
  - rewrite <- !app_assoc, Hl31. done.
  - rewrite length_app, Hl31. done.
Qed.

Lemma feed_overlong_line_witness :
  let bs := replicate 40 (chr "7") in
  let msg := replicate 31 (chr "7") ++ [NUL] in
  feed ILP32 (bs ++ [ch_lf]) uart_init
  = Some (Uart msg 0 [msg] (replicate 31 (chr "7") ++ [ch_cr; ch_lf])
            (data_writes 0 (replicate 31 (chr "7")) ++ [WriteNul 31]))
  /\ length (take 31 bs) = 31%nat
  /\ forall c st,
       is_terminator c = false -> rx_buf_pos st = MSG_SIZE - 1 ->
       on_byte ILP32 c st = Some st.
Proof.
  apply (feed_overlong_line ILP32 (replicate 40 (chr "7")) ch_lf
           (replicate 32 NUL) [] [] []).
  - reflexivity.
  - unfold MSGQ_MAX. simpl. lia.
  - reflexivity.
  - simpl. lia.
  - reflexivity.
Defined.

(** ** The invariant of the line assembler *)

Lemma store_in_bounds buf i v :
  0 <= i < Z.of_nat (length buf) ->
  store buf i v = Some (<[Z.to_nat i := v]> buf).
Proof.
  intros H. unfold store.
  destruct (Z.leb_spec 0 i); [|lia].
  by destruct (Z.ltb_spec i (Z.of_nat (length buf))); [|lia].
Qed.

Lemma uart_init_inv : rx_inv uart_init.
Proof. repeat split; simpl; by (constructor || unfold MSG_SIZE; lia). Qed.

(** One byte: no write falls outside [rx_buf], and the invariant holds
    afterwards. *)
Lemma on_byte_inv m c st :
  rx_inv st -> exists st', on_byte m c st = Some st' /\ rx_inv st'.
Proof.
  intros (Hlen & Hpos & Hw).
  change (Z.to_nat MSG_SIZE) with 32%nat in Hlen. unfold MSG_SIZE in Hpos.
  unfold on_byte. destruct (is_terminator c).
  - destruct (Z.eqb_spec (rx_buf_pos st) 0); [by eexists|].
    rewrite store_in_bounds by lia. simpl. eexists. split; [done|].
    repeat split; simpl.
    + by rewrite length_insert.
    + unfold MSG_SIZE. lia.
    + unfold MSG_SIZE. lia.
    + apply Forall_app. split; [done|]. repeat constructor; unfold MSG_SIZE; lia.
  - rewrite to_size_t_small by (unfold INT_MAX; lia).
    destruct (Z.ltb_spec (rx_buf_pos st) (MSG_SIZE - 1)) as [Hlt|_];
      [|by eexists].
    unfold MSG_SIZE in Hlt.
    rewrite store_in_bounds by lia. simpl. eexists. split; [done|].
    rewrite wrap_int_id by (unfold in_int, INT_MIN, INT_MAX; lia).
    repeat split; simpl.
    + by rewrite length_insert.
    + lia.
    + unfold MSG_SIZE. lia.
    + apply Forall_app. split; [done|]. repeat constructor; unfold MSG_SIZE; lia.
Qed.

Lemma rx_loop_inv m fifo : forall st,
  rx_inv st -> exists st', rx_loop m fifo st = Some st' /\ rx_inv st'.
Proof.
  induction fifo as [|c fifo IH]; intros st Hst; simpl; [by eexists|].
  destruct (on_byte_inv m c st Hst) as (st1 & -> & H1). simpl. by apply IH.
Qed.

Lemma serial_cb_inv m irq_update rx_ready fifo st :
  rx_inv st ->
  exists st', serial_cb m irq_update rx_ready fifo st = Some st' /\ rx_inv st'.
Proof.
  intros Hst. unfold serial_cb.
  destruct irq_update; simpl; [|by eexists].
  destruct rx_ready; simpl; [|by eexists].
  by apply rx_loop_inv.
Qed.

Lemma reachable_inv m st : reachable m st -> rx_inv st.
Proof.
  induction 1 as [|st st' u r fifo _ IH Hcb|st msg q _ IH _];
    [apply uart_init_inv| |done].
  destruct (serial_cb_inv m u r fifo st IH) as (st1 & E & H1).
  rewrite E in Hcb. by inversion Hcb; subst.
Qed.

(** C9: from any reachable state and for any bytes in the FIFO, [serial_cb]
    makes no write outside [rx_buf] (it is defined), and afterwards the
    cursor is in 0..31, every data byte was stored at an index below 31 and
    every write at index 31 stored the terminator. *)
Theorem serial_cb_in_bounds m st irq_update rx_ready fifo :
  reachable m st ->
  exists st',
    serial_cb m irq_update rx_ready fifo st = Some st'
    /\ length (rx_buf st') = 32%nat
    /\ 0 <= rx_buf_pos st' <= 31
    /\ (forall i c, WriteData i c ∈ rx_writes st' -> 0 <= i < 31)
    /\ (forall i, WriteNul i ∈ rx_writes st' -> 0 <= i <= 31).
Proof.
  intros Hst%reachable_inv.
  destruct (serial_cb_inv m irq_update rx_ready fifo st Hst)
    as (st' & E & Hlen & Hpos & Hw).
  exists st'. rewrite Forall_forall in Hw.
  repeat split; try done; try (unfold MSG_SIZE in Hpos; lia).
  - by apply (Hw (WriteData i c)).
  - by apply (Hw (WriteData i c)).
  - by apply (Hw (WriteNul i)).
  - by apply (Hw (WriteNul i)).
Qed.

Lemma serial_cb_in_bounds_witness :
  exists st',
    serial_cb ILP32 true true (str "12+3" ++ [ch_cr])
      (Uart (replicate 31 (chr "7") ++ [NUL]) 31 [] (replicate 31 (chr "7"))
         (data_writes 0 (replicate 31 (chr "7"))))
    = Some st'
    /\ length (rx_buf st') = 32%nat
    /\ 0 <= rx_buf_pos st' <= 31
    /\ (forall i c, WriteData i c ∈ rx_writes st' -> 0 <= i < 31)
    /\ (forall i, WriteNul i ∈ rx_writes st' -> 0 <= i <= 31).
Proof.
  apply (serial_cb_in_bounds ILP32).
  apply (reachable_cb ILP32 uart_init _ true true (replicate 40 (chr "7"))).
  - apply reachable_init.
  - reflexivity.
Defined.

(** ** What the assembler hands to the driving loop *)

Lemma terminated_elem p : NUL ∈ p -> terminated p.
Proof.
  induction p as [|c p IH]; intros H; [by apply elem_of_nil in H|].
  unfold terminated. simpl. destruct (Z.eqb_spec c NUL) as [->|Hc]; [by eexists|].
  apply elem_of_cons in H as [H|H]; [done|].
  destruct (IH H) as [n ->]. by eexists.
Qed.

Lemma k_msgq_put_inv q data :
  (length q <= MSGQ_MAX)%nat -> Forall msg_ok q ->
  length data = Z.to_nat MSG_SIZE -> terminated data ->
  (length (k_msgq_put q data) <= MSGQ_MAX)%nat
  /\ Forall msg_ok (k_msgq_put q data).
Proof.
  intros Hq Hok Hlen Ht. unfold k_msgq_put.
  destruct (Nat.ltb_spec (length q) MSGQ_MAX); [|done].
  rewrite length_app, take_ge by lia. simpl. split; [lia|].
  apply Forall_app. split; [done|]. by repeat constructor.
Qed.

Lemma on_byte_queue_inv m c st st' :
  rx_inv st -> queue_inv st -> on_byte m c st = Some st' -> queue_inv st'.
Proof.
  intros (Hlen & Hpos & _) [Hq Hok].
  change (Z.to_nat MSG_SIZE) with 32%nat in Hlen. unfold MSG_SIZE in Hpos.
  unfold on_byte. destruct (is_terminator c).
  - destruct (Z.eqb_spec (rx_buf_pos st) 0); [by intros [= <-]|].
    rewrite store_in_bounds by lia. simpl. intros [= <-].
    apply k_msgq_put_inv; try done.
    + by rewrite length_insert.
    + apply terminated_elem, list_elem_of_lookup.
      exists (Z.to_nat (rx_buf_pos st)). apply list_lookup_insert_eq. lia.
  - destruct (to_size_t m (rx_buf_pos st) <? MSG_SIZE - 1); [|by intros [= <-]].
    destruct (store (rx_buf st) (rx_buf_pos st) c); simpl; [|done].
    by intros [= <-].
Qed.

Lemma rx_loop_queue_inv m fifo : forall st st',
  rx_inv st -> queue_inv st -> rx_loop m fifo st = Some st' -> queue_inv st'.
Proof.
  induction fifo as [|c fifo IH]; intros st st' Hst Hq; simpl.
  - by intros [= <-].
  - destruct (on_byte_inv m c st Hst) as (st1 & E & H1). rewrite E. simpl.
    apply IH; [done|]. exact (on_byte_queue_inv m c st st1 Hst Hq E).
Qed.

(** Every message of a reachable queue fills [tx_buf] and holds a C
    string. *)
Lemma reachable_queue_inv m st : reachable m st -> queue_inv st.
Proof.
  induction 1 as [|st st' u r fifo Hst IH Hcb|st msg q Hst [IH1 IH2] Hq].
  - split; [unfold MSGQ_MAX; simpl; lia | constructor].
  - apply reachable_inv in Hst. unfold serial_cb in Hcb.
    destruct u; simpl in Hcb; [|by inversion Hcb; subst].
    destruct r; simpl in Hcb; [|by inversion Hcb; subst].
    exact (rx_loop_queue_inv m fifo st st' Hst IH Hcb).
  - rewrite Hq in IH1, IH2. simpl in IH1. apply Forall_cons in IH2 as [_ IH2].
    split; simpl; [lia | done].
Qed.

(** ** The driving loop *)

Lemma udecimal_length fuel : forall n k,
  (0 < k)%nat -> 0 <= n < 10 ^ Z.of_nat k ->
  (length (udecimal fuel n) <= k)%nat.
Proof.
  induction fuel as [|f IH]; intros n k Hk Hn; simpl; [lia|].
  rewrite length_app. simpl.
  destruct (Z.ltb_spec n 10) as [Hlt|Hge]; simpl; [lia|].
  destruct k as [|[|k]]; [lia| simpl in Hn; lia |].
  assert (0 <= n / 10 < 10 ^ Z.of_nat (S k)).
  { split; [apply Z.div_pos; lia|].
    apply Z.div_lt_upper_bound; [lia|].
    rewrite (Nat2Z.inj_succ (S k)), Z.pow_succ_r in Hn by lia. lia. }
  specialize (IH (n / 10) (S k)). lia.
Qed.

(** An [int] prints in at most 11 characters. *)
Lemma decimal_length v : in_int v -> (length (decimal v) <= 11)%nat.
Proof.
  unfold in_int, INT_MIN, INT_MAX, decimal. intros Hv.
  destruct (Z.ltb_spec v 0); simpl.
  - pose proof (udecimal_length (decimal_fuel (- v)) (- v) 10). simpl in *. lia.
  - pose proof (udecimal_length (decimal_fuel v) v 10). simpl in *. lia.
Qed.

Lemma decimal_nonnul v : nonnul (decimal v).
Proof.
  destruct (decimal_numeral v) as (-> & Hd & _). by apply numeral_nonnul.
Qed.

Lemma print_uart_string l tl :
  nonnul l -> print_uart (l ++ NUL :: tl) 1 = Some (l ++ [ch_cr; ch_lf]).
Proof.
  intros Hl. unfold print_uart. rewrite strlen_nonnul by done. simpl.
  by rewrite Nat2Z.id, take_app_length.
Qed.

Lemma eval_expression_success_range m expr r v :
  eval_expression m expr r = Some (ERR_NONE, v) -> in_int v.
Proof.
  intros [[? _]|(a & b & op & H)]%eval_expression_cases; [done|].
  destruct (perform_operation_cases a b op r)
    as [(v' & E & Hv & _)|[(E & _)|[(E & _)|(E & _)]]]; rewrite E in H;
    inversion H; by subst.
Qed.

(** On success, the loop sends ["Result: "], the number and CR LF. *)
Lemma answer_result tx_buf v :
  length tx_buf = Z.to_nat MSG_SIZE -> in_int v ->
  (tx_buf' ← sprintf_result tx_buf v; print_uart tx_buf' 1)
  = Some (response (Success v)).
Proof.
  intros Hlen Hv. change (Z.to_nat MSG_SIZE) with 32%nat in Hlen.
  pose proof (decimal_length v Hv) as Hd.
  unfold sprintf_result, response.
  assert (Hp : nonnul (str "Result: ")) by (by repeat constructor).
  assert (Hl : length (str "Result: ") = 8%nat) by done.
  generalize dependent (str "Result: "). intros pre Hp Hl.
  destruct (Nat.leb_spec (length (pre ++ decimal v ++ [NUL])) (length tx_buf))
    as [_|Hgt]; [|rewrite !length_app in Hgt; simpl in Hgt; lia].
  cbn [mbind option_bind].
  rewrite <- !app_assoc, (app_assoc pre). simpl.
  rewrite print_uart_string; [by rewrite <- app_assoc|].
  apply Forall_app. split; [done | apply decimal_nonnul].
Qed.

(** One turn of the loop of [main] sends what one evaluation and its
    three-way outcome call for. *)
Lemma main_iteration_single m tx_buf :
  length tx_buf = Z.to_nat MSG_SIZE ->
  main_iteration m tx_buf = single_iteration m tx_buf.
Proof.
  intros Hlen. unfold main_iteration, single_iteration, evaluate.
  destruct (eval_expression m tx_buf 0) as [[rc v]|] eqn:E; simpl; [|done].
  destruct (Z.eqb_spec rc ERR_NONE) as [->|Hrc].
  - apply answer_result; [done|]. by eapply eval_expression_success_range.
  - pose proof (eval_expression_error_keeps _ _ _ _ _ E Hrc) as ->.
    rewrite E. simpl. by destruct (rc =? ERR_ZERO_DIV).
Qed.

(** C7: on the messages the queue delivers, each the 32 bytes of [tx_buf],
    the loop of [main], which evaluates a line once and, on failure, once
    more, sends what the loop with a single evaluation and a three-way
    outcome sends: for each line one of ["Result: <integer>"],
    ["Division by zero!"] and ["Invalid expression!"]. *)
Theorem main_loop_single_evaluation m msgs :
  Forall (fun tx_buf => length tx_buf = Z.to_nat MSG_SIZE) msgs ->
  main_loop m msgs = single_loop m msgs
  /\ Forall (fun tx_buf =>
               main_iteration m tx_buf
               = (o ← evaluate m tx_buf; Some (response o)))
       msgs.
Proof.
  induction 1 as [|tx_buf msgs Hlen _ [IH1 IH2]]; [by split|].
  split.
  - simpl. by rewrite main_iteration_single, IH1.
  - constructor; [|done]. by apply main_iteration_single.
Qed.

Lemma main_loop_single_evaluation_witness :
  let msgs := [fresh_msg "10 / 2"; fresh_msg "7 % 0"; fresh_msg "hello"] in
  main_loop ILP32 msgs = single_loop ILP32 msgs
  /\ Forall (fun tx_buf =>
               main_iteration ILP32 tx_buf
               = (o ← evaluate ILP32 tx_buf; Some (response o)))
       msgs.
Proof.
  apply (main_loop_single_evaluation ILP32).
  repeat constructor.
Defined.

Example main_loop_scenario :
  main_loop ILP32 [fresh_msg "10 / 2"; fresh_msg "7 % 0"; fresh_msg "hello"]
  = Some (str "Result: 5" ++ [ch_cr; ch_lf]
          ++ str "Division by zero!" ++ [ch_cr; ch_lf]
          ++ str "Invalid expression!" ++ [ch_cr; ch_lf]).
Proof. reflexivity. Qed.

(** * Further properties *)

(** ** The bytes the evaluator does not read *)

Lemma strlen_extend p tl n : strlen p = Some n -> strlen (p ++ tl) = Some n.
Proof.
  revert n. induction p as [|c p IH]; intros n; simpl; [done|].
  destruct (c =? NUL); [done|].
  destruct (strlen p) as [k|]; simpl; [|done].
  intros [= <-]. by rewrite (IH k).
Qed.

Lemma skip_space_extend p q tl :
  skip_space p = Some q -> skip_space (p ++ tl) = Some (q ++ tl).
Proof.
  induction p as [|c p IH]; simpl; [done|].
  destruct (isspace c); [done|]. by intros [= <-].
Qed.

Lemma scan_digits_extend p tl : forall acc v q,
  scan_digits acc p = Some (v, q) ->
  scan_digits acc (p ++ tl) = Some (v, q ++ tl).
Proof.
  induction p as [|c p IH]; intros acc v q; simpl; [done|].
  destruct (isdigit c); [by apply IH|]. by intros [= <- <-].
Qed.

Lemma strtol_extend m p v q tl :
  strtol m p = Some (v, q) -> strtol m (p ++ tl) = Some (v, q ++ tl).
Proof.
  unfold strtol.
  destruct (skip_space p) as [s|] eqn:Es; cbn [mbind option_bind]; [|done].
  rewrite (skip_space_extend _ _ tl Es). cbn [mbind option_bind].
  destruct s as [|c p']; [done|]. cbn [app].
  set (qi := if (c =? ch_minus) || (c =? ch_plus) then p' else c :: p').
  replace (if (c =? ch_minus) || (c =? ch_plus) then p' ++ tl
           else c :: p' ++ tl)
    with (qi ++ tl) by (unfold qi; by destruct ((c =? ch_minus) || (c =? ch_plus))).
  clearbody qi. destruct qi as [|d qi']; [done|]. cbn [app].
  destruct (isdigit d); [|by intros [= <- <-]].
  destruct (scan_digits 0 (d :: qi')) as [[v' e]|] eqn:Ed;
    cbn [mbind option_bind]; [|done].
  change (d :: qi' ++ tl) with ((d :: qi') ++ tl).
  rewrite (scan_digits_extend _ tl _ _ _ Ed). cbn [mbind option_bind].
  by intros [= <- <-].
Qed.

(** X1: when [eval_expression] is defined on an array, it returns the same
    on every array that starts with the same bytes: what lies behind the
    bytes it read, such as the remains of earlier lines in [tx_buf], has no
    influence on the result. *)
Theorem eval_expression_extend m p r res tl :
  eval_expression m p r = Some res ->
  eval_expression m (p ++ tl) r = Some res.
Proof.
  unfold eval_expression. intros H.
  destruct (strtol m p) as [[v1 e1]|] eqn:E1; cbn [mbind option_bind] in H;
    [|done].
  rewrite (strtol_extend _ _ _ _ tl E1). cbn [mbind option_bind].
  destruct (strlen e1) as [n1|] eqn:L1; cbn [mbind option_bind] in H; [|done].
  rewrite (strlen_extend _ tl _ L1). cbn [mbind option_bind].
  destruct (strlen p) as [n0|] eqn:L0; cbn [mbind option_bind] in H; [|done].
  rewrite (strlen_extend _ tl _ L0). cbn [mbind option_bind].
  destruct (n1 =? n0); [done|].
  destruct (skip_space e1) as [e1'|] eqn:K1; cbn [mbind option_bind] in H;
    [|done].
  rewrite (skip_space_extend _ _ tl K1). cbn [mbind option_bind].
  destruct e1' as [|op e2]; [done|]. cbn [head tail app mbind option_bind] in *.
  destruct (strtol m e2) as [[v2 e3]|] eqn:E2; cbn [mbind option_bind] in H;
    [|done].
  rewrite (strtol_extend _ _ _ _ tl E2). cbn [mbind option_bind].
  destruct (strlen e3) as [n3|] eqn:L3; cbn [mbind option_bind] in H; [|done].
  rewrite (strlen_extend _ tl _ L3). cbn [mbind option_bind].
  destruct (strlen e2) as [n2|] eqn:L2; cbn [mbind option_bind] in H; [|done].
  rewrite (strlen_extend _ tl _ L2). cbn [mbind option_bind].
  destruct (n3 =? n2); [done|].
  destruct (skip_space e3) as [e3'|] eqn:K3; cbn [mbind option_bind] in H;
    [|done].
  rewrite (skip_space_extend _ _ tl K3). cbn [mbind option_bind].
  destruct e3' as [|c e4]; [done|]. cbn [head app mbind option_bind] in *.
  done.
Qed.

Lemma eval_expression_extend_witness :
  eval_expression ILP32 (cstr "6 * 7" ++ str "9 / 0") 1 = Some (ERR_NONE, 42).
Proof.
  apply (eval_expression_extend ILP32 (cstr "6 * 7") 1 (ERR_NONE, 42)
           (str "9 / 0")).
  reflexivity.
Defined.

(** ** What the library functions step over *)

Lemma skip_space_consumes p q :
  skip_space p = Some q -> exists w, p = w ++ q /\ whitespace w.
Proof.
  induction p as [|c p IH]; simpl; [done|].
  destruct (isspace c) eqn:Hc.
  - intros (w & -> & Hw)%IH. exists (c :: w). split; [done|].
    unfold whitespace. simpl. by rewrite Hc.
  - intros [= <-]. by exists [].
Qed.

Lemma scan_digits_consumes p : forall acc v q,
  scan_digits acc p = Some (v, q) ->
  exists ds, p = ds ++ q /\ forallb isdigit ds = true.
Proof.
  induction p as [|c p IH]; intros acc v q; simpl; [done|].
  destruct (isdigit c) eqn:Hc.
  - intros (ds & -> & Hds)%IH. exists (c :: ds). split; [done|].
    simpl. by rewrite Hc.
  - intros [= <- <-]. by exists [].
Qed.

(** [strtol] converts nothing, or steps over white space and a numeral. *)
Lemma strtol_consumes m p v q :
  strtol m p = Some (v, q) ->
  q = p
  \/ exists w sg ds, whitespace w /\ digits ds /\ p = w ++ numeral sg ds ++ q.
Proof.
  unfold strtol.
  destruct (skip_space p) as [s|] eqn:Es; cbn [mbind option_bind]; [|done].
  apply skip_space_consumes in Es as (w & -> & Hw).
  destruct s as [|c p']; [done|].
  set (qi := if (c =? ch_minus) || (c =? ch_plus) then p' else c :: p').
  assert (exists sg, c :: p' = sign_chars sg ++ qi) as [sg Hsg].
  { unfold qi. destruct (Z.eqb_spec c ch_minus) as [->|_]; [by exists Minus|].
    destruct (Z.eqb_spec c ch_plus) as [->|_]; [by exists Plus|].
    by exists NoSign. }
  rewrite Hsg. clearbody qi. destruct qi as [|d qi']; [done|].
  destruct (isdigit d) eqn:Hd; [|intros [= <- <-]; by left].
  destruct (scan_digits 0 (d :: qi')) as [[v' e]|] eqn:Ed;
    cbn [mbind option_bind]; [|done].
  intros [= <- <-]. right.
  simpl in Ed. rewrite Hd in Ed.
  apply scan_digits_consumes in Ed as (ds & -> & Hds).
  exists w, sg, (d :: ds). split; [done|]. split.
  - split; [done|]. simpl. by rewrite Hd.
  - unfold numeral. by rewrite <- !app_assoc.
Qed.

Lemma last_nul_terminated p : last p = Some NUL -> terminated p.
Proof. intros H. by apply terminated_elem, last_Some_elem_of. Qed.

Lemma last_nul_suffix k q :
  last (k ++ q) = Some NUL -> q <> [] -> last q = Some NUL.
Proof.
  intros H Hq. rewrite last_app in H.
  destruct (last q) as [x|] eqn:E; [done|]. by apply last_None in E.
Qed.

(** ** When the evaluator leaves the array *)

(** The division overflows exactly for [INT_MIN / -1] and [INT_MIN % -1]. *)
Lemma perform_operation_none o a b r :
  perform_operation a b (op_char o) r = None
  <-> divides o && div_overflow a b = true.
Proof.
  unfold perform_operation, div_overflow.
  destruct o; simpl; try done.
  - destruct (Z.eqb_spec b 0) as [->|_]; simpl.
    + by rewrite andb_false_r.
    + by destruct ((a =? INT_MIN) && (b =? -1)).
  - destruct (Z.eqb_spec b 0) as [->|_]; simpl.
    + by rewrite andb_false_r.
    + by destruct ((a =? INT_MIN) && (b =? -1)).
Qed.

Lemma expression_assoc w1 n1 w2 op w3 n2 w4 (tl : list Z) :
  w1 ++ n1 ++ w2 ++ op :: w3 ++ n2 ++ w4 ++ NUL :: tl
  = expression w1 n1 w2 op w3 n2 w4 ++ NUL :: tl.
Proof. unfold expression. repeat (rewrite <- app_assoc; simpl). done. Qed.

(** On an array that ends with a NUL, the evaluation is undefined only for
    a single numeral whose terminator is the last byte, and for a division
    that overflows. *)
Lemma eval_expression_none_shape m p r :
  last p = Some NUL ->
  eval_expression m p r = None ->
  lone_operand p \/ well_formed m p true.
Proof.
  intros Hlast H0. pose proof H0 as H.
  pose proof (last_nul_terminated p Hlast) as Hp.
  destruct (strtol_terminated m p Hp) as (v1 & e1 & E1 & Ht1).
  pose proof Hp as [n0 L0]. pose proof Ht1 as [n1 L1].
  destruct (skip_space_terminated e1 Ht1) as (op & e2 & K1 & Ht1' & Hop).
  unfold eval_expression in H. rewrite E1 in H. cbn [mbind option_bind] in H.
  rewrite L1, L0 in H. cbn [mbind option_bind] in H.
  destruct (strtol_consumes m p v1 e1 E1) as [->|(w1 & sg & ds & Hw1 & Hds & ->)].
  - (* nothing converted: the lengths are equal *)
    rewrite L0 in L1. injection L1 as ->. by rewrite Z.eqb_refl in H.
  - destruct (n1 =? n0); [done|].
    rewrite K1 in H. cbn [mbind option_bind head tail] in H.
    apply skip_space_consumes in K1 as (w2 & -> & Hw2).
    destruct e2 as [|c e2'].
    + (* the operator is the last byte *)
      left. exists w1, sg, ds, w2. split; [done|]. split; [done|]. split; [done|].
      rewrite !app_assoc in Hlast. rewrite last_snoc in Hlast.
      by injection Hlast as ->.
    + (* bytes follow the operator: the parse is defined *)
      right.
      assert (Ht2 : terminated (c :: e2')).
      { apply last_nul_terminated.
        replace (w1 ++ numeral sg ds ++ w2 ++ op :: c :: e2')
          with ((w1 ++ numeral sg ds ++ w2 ++ [op]) ++ c :: e2') in Hlast
          by (by rewrite <- !app_assoc).
        by apply last_nul_suffix in Hlast. }
      destruct (strtol_terminated m _ Ht2) as (v2 & e3 & E2 & Ht3).
      destruct Ht2 as [n2 L2]. pose proof Ht3 as [n3 L3].
      destruct (skip_space_terminated e3 Ht3) as (c3 & e4 & K3 & _ & _).
      rewrite E2 in H. cbn [mbind option_bind] in H.
      rewrite L3, L2 in H. cbn [mbind option_bind] in H.
      destruct (Z.eqb_spec n3 n2) as [->|Hn3]; [done|].
      rewrite K3 in H. cbn [mbind option_bind head] in H.
      destruct (Z.eqb_spec c3 NUL) as [->|Hc3]; [|done]. cbn [negb] in H.
      (* the operation is undefined: the operator is [/] or [%] *)
      assert (exists o, op = op_char o) as [o ->].
      { destruct (perform_operation_cases (wrap_int v1) (wrap_int v2) op r)
          as [(? & E & _)|[(E & _)|[(E & _)|(_ & [-> | ->] & _)]]];
          [congruence | congruence | congruence | by exists Div | by exists Mod]. }
      destruct (strtol_consumes m _ v2 e3 E2)
        as [->|(w3 & sg2 & ds2 & Hw3 & Hd2 & Heq)]; [congruence|].
      apply skip_space_consumes in K3 as (w4 & -> & Hw4).
      rewrite Heq, expression_assoc in H0.
      destruct (op_char_class o) as (Ho1 & Ho2 & Ho3).
      rewrite eval_expression_line in H0 by done.
      apply perform_operation_none in H0.
      exists w1, sg, ds, w2, o, w3, sg2, ds2, w4, e4.
      split; [done|]. split; [done|].
      split; [by rewrite Heq, expression_assoc | done].
Qed.

(** A single numeral whose terminator is the last byte of the array: the
    second [strtol] starts behind the array. *)
Lemma lone_operand_none m w1 sg ds w2 r :
  whitespace w1 -> digits ds -> whitespace w2 ->
  eval_expression m (w1 ++ numeral sg ds ++ w2 ++ [NUL]) r = None.
Proof.
  intros Hw1 Hd Hw2.
  assert (isdigit NUL = false) as HN by done.
  destruct (after_space_nondigit w2 NUL [] Hw2 HN) as (c & p & E & Hc).
  assert (Hs : strtol m (w1 ++ numeral sg ds ++ w2 ++ [NUL])
               = Some (clamp_long m (numeral_value sg ds), w2 ++ [NUL]))
    by (rewrite E; by apply strtol_numeral).
  assert (Hl : strlen (w2 ++ [NUL]) = Some (Z.of_nat (length w2)))
    by (apply strlen_nonnul; by apply whitespace_nonnul).
  assert (Hl0 : strlen (w1 ++ numeral sg ds ++ w2 ++ [NUL])
                = Some (Z.of_nat (length w2)
                        + Z.of_nat (length (w1 ++ numeral sg ds)))).
  { rewrite (app_assoc w1), strlen_app_nonnul, Hl; [done|].
    apply Forall_app; split; [by apply whitespace_nonnul|by apply numeral_nonnul]. }
  pose proof (numeral_length sg ds Hd) as Hn.
  unfold eval_expression. rewrite Hs. cbn [mbind option_bind].
  rewrite Hl, Hl0. cbn [mbind option_bind].
  destruct (Z.eqb_spec (Z.of_nat (length w2))
              (Z.of_nat (length w2) + Z.of_nat (length (w1 ++ numeral sg ds))));
    [rewrite length_app in *; lia|].
  by rewrite skip_space_app.
Qed.

(** X2: on an array that ends with a NUL, [eval_expression] has no defined
    behaviour in two cases and no other: the array holds a single numeral,
    with or without white space around it, and the string ends with the
    array (the second [strtol] reads behind the array); or the array holds
    a well-formed line that, with its operands stored in [int]s, is
    [INT_MIN / -1] or [INT_MIN % -1] (the division overflows). *)
Theorem eval_expression_undefined_iff m p r :
  last p = Some NUL ->
  eval_expression m p r = None <-> lone_operand p \/ well_formed m p true.
Proof.
  intros Hlast. split.
  - by apply eval_expression_none_shape.
  - intros [(w1 & sg & ds & w2 & Hw1 & Hds & Hw2 & ->)
           |(w1 & sg1 & ds1 & w2 & o & w3 & sg2 & ds2 & w4 & tl
             & (Hw1 & Hw2 & Hw3 & Hw4) & (Hd1 & Hd2) & -> & Hov)].
    + by apply lone_operand_none.
    + destruct (op_char_class o) as (Ho1 & Ho2 & Ho3).
      rewrite eval_expression_line by done.
      by apply perform_operation_none.
Qed.

Lemma eval_expression_undefined_iff_witness :
  (eval_expression ILP32 (cstr " -12 ") 0 = None
   <-> lone_operand (cstr " -12 ") \/ well_formed ILP32 (cstr " -12 ") true)
  /\ (eval_expression ILP32 (cstr "-2147483648 % -1") 0 = None
      <-> lone_operand (cstr "-2147483648 % -1")
          \/ well_formed ILP32 (cstr "-2147483648 % -1") true)
  /\ eval_expression ILP32 (cstr "12 -") 0 <> None.
Proof.
  split; [|split].
  - apply (eval_expression_undefined_iff ILP32 (cstr " -12 ") 0). reflexivity.
  - apply (eval_expression_undefined_iff ILP32 (cstr "-2147483648 % -1") 0).
    reflexivity.
  - discriminate.
Defined.

(** ** The lines the evaluator accepts *)

(** A return code other than [ERR_INVALID_EXPR] is what [perform_operation]
    returns on a line of two numerals and one of the five operators. *)
Lemma eval_expression_parsed m p r rc v :
  eval_expression m p r = Some (rc, v) -> rc <> ERR_INVALID_EXPR ->
  exists w1 sg1 ds1 w2 o w3 sg2 ds2 w4 tl,
    (whitespace w1 /\ whitespace w2 /\ whitespace w3 /\ whitespace w4)
    /\ (digits ds1 /\ digits ds2)
    /\ p = expression w1 (numeral sg1 ds1) w2 (op_char o) w3
             (numeral sg2 ds2) w4 ++ NUL :: tl
    /\ perform_operation (operand_of m sg1 ds1) (operand_of m sg2 ds2)
         (op_char o) r = Some (rc, v).
Proof.
  intros H0 Hrc. pose proof H0 as H. unfold eval_expression in H.
  destruct (strtol m p) as [[v1 e1]|] eqn:E1; cbn [mbind option_bind] in H;
    [|done].
  destruct (strlen e1) as [n1|] eqn:L1; cbn [mbind option_bind] in H; [|done].
  destruct (strlen p) as [n0|] eqn:L0; cbn [mbind option_bind] in H; [|done].
  destruct (Z.eqb_spec n1 n0) as [->|Hn1]; [by injection H as <- _|].
  destruct (skip_space e1) as [e1'|] eqn:K1; cbn [mbind option_bind] in H;
    [|done].
  destruct e1' as [|op e2]; [done|]. cbn [head tail mbind option_bind] in H.
  destruct (strtol m e2) as [[v2 e3]|] eqn:E2; cbn [mbind option_bind] in H;
    [|done].
  destruct (strlen e3) as [n3|] eqn:L3; cbn [mbind option_bind] in H; [|done].
  destruct (strlen e2) as [n2|] eqn:L2; cbn [mbind option_bind] in H; [|done].
  destruct (Z.eqb_spec n3 n2) as [->|Hn3]; [by injection H as <- _|].
  destruct (skip_space e3) as [e3'|] eqn:K3; cbn [mbind option_bind] in H;
    [|done].
  destruct e3' as [|c e4]; [done|]. cbn [head mbind option_bind] in H.
  destruct (Z.eqb_spec c NUL) as [->|Hc]; [|by injection H as <- _].
  cbn [negb] in H.
  (* the operator is one of the five *)
  assert (exists o, op = op_char o) as [o ->].
  { destruct (perform_operation_cases (wrap_int v1) (wrap_int v2) op r)
      as [(? & _ & _ & Ho)|[(_ & _ & [-> | ->])|[(E & _)|(_ & [-> | ->] & _)]]];
      [done | by exists Div | by exists Mod | congruence
      | by exists Div | by exists Mod]. }
  (* what the four steps stepped over *)
  destruct (strtol_consumes m p v1 e1 E1)
    as [->|(w1 & sg1 & ds1 & Hw1 & Hd1 & ->)]; [congruence|].
  apply skip_space_consumes in K1 as (w2 & -> & Hw2).
  destruct (strtol_consumes m e2 v2 e3 E2)
    as [->|(w3 & sg2 & ds2 & Hw3 & Hd2 & ->)]; [congruence|].
  apply skip_space_consumes in K3 as (w4 & -> & Hw4).
  exists w1, sg1, ds1, w2, o, w3, sg2, ds2, w4, e4.
  assert (Hp : w1 ++ numeral sg1 ds1 ++ w2 ++ op_char o :: w3 ++ numeral sg2 ds2
                 ++ w4 ++ NUL :: e4
               = expression w1 (numeral sg1 ds1) w2 (op_char o) w3
                   (numeral sg2 ds2) w4 ++ NUL :: e4).
  { unfold expression. repeat (rewrite <- app_assoc; simpl). done. }
  split; [done|]. split; [done|]. split; [done|].
  destruct (op_char_class o) as (Ho1 & Ho2 & Ho3).
  by rewrite Hp, eval_expression_line in H0.
Qed.

(** X3: [eval_expression] returns a result or [ERR_ZERO_DIV], rather than
    [ERR_INVALID_EXPR] or nothing, exactly on the arrays that hold: white
    space, a numeral, white space, one of [+ - * / %], white space, a
    numeral, white space, and the terminator, and that are not [INT_MIN / -1]
    or [INT_MIN % -1] once the operands are stored in [int]s. *)
Theorem eval_expression_accepts m p r :
  (exists rc v, eval_expression m p r = Some (rc, v) /\ rc <> ERR_INVALID_EXPR)
  <-> well_formed m p false.
Proof.
  split.
  - intros (rc & v & H & Hrc).
    destruct (eval_expression_parsed m p r rc v H Hrc)
      as (w1 & sg1 & ds1 & w2 & o & w3 & sg2 & ds2 & w4 & tl & Hw & Hd & Hp & Hop).
    exists w1, sg1, ds1, w2, o, w3, sg2, ds2, w4, tl.
    split; [done|]. split; [done|]. split; [done|].
    destruct (divides o && div_overflow (operand_of m sg1 ds1)
                             (operand_of m sg2 ds2)) eqn:E; [|done].
    apply perform_operation_none with (r := r) in E. congruence.
  - intros (w1 & sg1 & ds1 & w2 & o & w3 & sg2 & ds2 & w4 & tl
            & (Hw1 & Hw2 & Hw3 & Hw4) & (Hd1 & Hd2) & -> & Hov).
    destruct (op_char_class o) as (Ho1 & Ho2 & Ho3).
    rewrite eval_expression_line by done.
    destruct (perform_operation_cases (operand_of m sg1 ds1)
                (operand_of m sg2 ds2) (op_char o) r)
      as [(v & -> & _)|[(-> & _)|[(_ & Hno)|(E & _)]]].
    + by exists ERR_NONE, v.
    + by exists ERR_ZERO_DIV, r.
    + destruct Hno. by exists o.
    + apply perform_operation_none in E. congruence.
Qed.

Lemma eval_expression_accepts_witness :
  ((exists rc v, eval_expression ILP32 (cstr "6*7") 0 = Some (rc, v)
                 /\ rc <> ERR_INVALID_EXPR)
   <-> well_formed ILP32 (cstr "6*7") false)
  /\ ~ well_formed ILP32 (cstr "-2147483648 / -1") false.
Proof.
  split.
  - apply (eval_expression_accepts ILP32 (cstr "6*7") 0).
  - intros H.
    apply (eval_expression_accepts ILP32 (cstr "-2147483648 / -1") 0) in H
      as (rc & v & H & _).
    discriminate H.
Defined.

(** X4: [eval_expression] returns [ERR_ZERO_DIV] only on a line of two
    numerals joined by [/] or [%] whose second operand, as an [int], is 0;
    [*result] is then unchanged. *)
Theorem eval_expression_zero_div_only m p r v :
  eval_expression m p r = Some (ERR_ZERO_DIV, v) ->
  v = r
  /\ exists w1 sg1 ds1 w2 o w3 sg2 ds2 w4 tl,
       (whitespace w1 /\ whitespace w2 /\ whitespace w3 /\ whitespace w4)
       /\ (digits ds1 /\ digits ds2)
       /\ p = expression w1 (numeral sg1 ds1) w2 (op_char o) w3
                (numeral sg2 ds2) w4 ++ NUL :: tl
       /\ divides o = true
       /\ operand_of m sg2 ds2 = 0.
Proof.
  intros H.
  destruct (eval_expression_parsed m p r _ v H)
    as (w1 & sg1 & ds1 & w2 & o & w3 & sg2 & ds2 & w4 & tl & Hw & Hd & Hp & Hop);
    [done|].
  destruct (perform_operation_cases (operand_of m sg1 ds1)
              (operand_of m sg2 ds2) (op_char o) r)
    as [(v' & E & _)|[(E & Hz & Hdiv)|[(E & _)|(E & _)]]]; rewrite E in Hop;
    [done | | done | done].
  injection Hop as <-. split; [done|].
  exists w1, sg1, ds1, w2, o, w3, sg2, ds2, w4, tl.
  repeat (split; [done|]). split; [|done].
  destruct o; destruct Hdiv as [Ho|Ho]; done.
Qed.

Example eval_zero_div_wrapped :
  eval_expression LP64 (cstr "5 % 4294967296") 3 = Some (ERR_ZERO_DIV, 3).
Proof. reflexivity. Qed.

Lemma eval_expression_zero_div_only_witness :
  3 = 3
  /\ exists w1 sg1 ds1 w2 o w3 sg2 ds2 w4 tl,
       (whitespace w1 /\ whitespace w2 /\ whitespace w3 /\ whitespace w4)
       /\ (digits ds1 /\ digits ds2)
       /\ cstr "5 % 4294967296"
          = expression w1 (numeral sg1 ds1) w2 (op_char o) w3
              (numeral sg2 ds2) w4 ++ NUL :: tl
       /\ divides o = true
       /\ operand_of LP64 sg2 ds2 = 0.
Proof.
  apply (eval_expression_zero_div_only LP64 (cstr "5 % 4294967296") 3 3).
  reflexivity.
Defined.

(** ** Division and remainder *)

Lemma quot_in_int a b :
  in_int a -> in_int b -> b <> 0 -> ~ (a = INT_MIN /\ b = -1) ->
  in_int (Z.quot a b).
Proof.
  unfold in_int, INT_MIN, INT_MAX. intros Ha Hb Hz Hmin.
  pose proof (Z.quot_rem' a b) as Hqr.
  pose proof (Z.rem_bound_abs a b Hz) as Hr.
  assert (Hs : 0 <= Z.rem a b * a) by (apply Z.rem_sign_mul; done).
  destruct (Z.eq_dec b (-1)) as [->|Hb1].
  - lia.
  - nia.
Qed.

Lemma rem_in_int a b : in_int b -> b <> 0 -> in_int (Z.rem a b).
Proof.
  unfold in_int, INT_MIN, INT_MAX. intros Hb Hz.
  pose proof (Z.rem_bound_abs a b Hz). lia.
Qed.

(** X5: for operands in the range of [int], a divisor that is not 0, and
    not [INT_MIN / -1], the quotient [q] and the remainder [rm] that
    [perform_operation] stores for [/] and [%] satisfy [b * q + rm = a]; the
    remainder is smaller than the divisor in magnitude and is 0 or has the
    sign of [a]. *)
Theorem perform_operation_div_mod a b r :
  in_int a -> in_int b -> b <> 0 -> ~ (a = INT_MIN /\ b = -1) ->
  exists q rm,
    perform_operation a b ch_slash r = Some (ERR_NONE, q)
    /\ perform_operation a b ch_percent r = Some (ERR_NONE, rm)
    /\ b * q + rm = a
    /\ Z.abs rm < Z.abs b
    /\ 0 <= rm * a.
Proof.
  intros Ha Hb Hz Hmin. exists (Z.quot a b), (Z.rem a b).
  unfold perform_operation. simpl.
  destruct (Z.eqb_spec b 0) as [|_]; [done|]. simpl.
  rewrite (proj2 (div_overflow_false a b) Hmin).
  rewrite (wrap_int_id (Z.quot a b)) by (by apply quot_in_int).
  rewrite (wrap_int_id (Z.rem a b)) by (by apply rem_in_int).
  repeat split.
  - symmetry. apply Z.quot_rem'.
  - by apply Z.rem_bound_abs.
  - by apply Z.rem_sign_mul.
Qed.

Lemma perform_operation_div_mod_witness :
  exists q rm,
    perform_operation (-7) 2 ch_slash 0 = Some (ERR_NONE, q)
    /\ perform_operation (-7) 2 ch_percent 0 = Some (ERR_NONE, rm)
    /\ 2 * q + rm = -7
    /\ Z.abs rm < Z.abs 2
    /\ 0 <= rm * -7.
Proof.
  apply (perform_operation_div_mod (-7) 2 0).
  - vm_compute; split; discriminate.
  - vm_compute; split; discriminate.
  - discriminate.
  - intros [H _]. discriminate H.
Defined.

(** ** Bursts of bytes *)

Lemma serial_cb_app m fifo1 fifo2 st :
  serial_cb m true true (fifo1 ++ fifo2) st
  = st' ← serial_cb m true true fifo1 st; serial_cb m true true fifo2 st'.
Proof. unfold serial_cb. simpl. apply rx_loop_app. Qed.

(** X6: how the bytes are spread over interrupts makes no difference:
    [serial_cb] run once for each burst leaves the state that one run on
    all the bytes leaves; in particular one interrupt for each byte does. *)
Theorem feed_bursts_concat m bursts st :
  feed_bursts m bursts st = serial_cb m true true (concat bursts) st
  /\ feed m (concat bursts) st = serial_cb m true true (concat bursts) st.
Proof.
  split; [|by rewrite feed_rx_loop].
  revert st. induction bursts as [|fifo bursts IH]; intros st; [done|].
  cbn [feed_bursts concat]. rewrite serial_cb_app.
  destruct (serial_cb m true true fifo st) as [st'|]; [apply IH | done].
Qed.

(** ** A run of data bytes *)

Lemma take_store (buf : list Z) (i : nat) (v : Z) :
  (i < length buf)%nat ->
  take (S i) (<[i := v]> buf) = take i buf ++ [v].
Proof.
  intros Hi. rewrite (take_S_r _ _ v) by (by apply list_lookup_insert_eq).
  by rewrite take_insert_ge.
Qed.

(** X7: a run of data bytes, from any state that satisfies the invariant:
    nothing is posted; the cursor moves by the length of the run, up to 31;
    the bytes that fit below index 31 are appended to the partial line in
    [rx_buf] and echoed, the others are dropped without echo. *)
Theorem rx_loop_data_run m bs : forall st,
  rx_inv st -> data_bytes bs ->
  exists st',
    rx_loop m bs st = Some st'
    /\ rx_buf_pos st' = Z.min (rx_buf_pos st + Z.of_nat (length bs)) 31
    /\ uart_msgq st' = uart_msgq st
    /\ uart_out st'
       = uart_out st ++ take (Z.to_nat (31 - rx_buf_pos st)) bs
    /\ take (Z.to_nat (rx_buf_pos st')) (rx_buf st')
       = take (Z.to_nat (rx_buf_pos st)) (rx_buf st)
         ++ take (Z.to_nat (31 - rx_buf_pos st)) bs.
Proof.
  induction bs as [|b bs IH]; intros st Hst Hd.
  - exists st. simpl. rewrite take_nil, !app_nil_r.
    destruct Hst as (_ & Hpos & _). unfold MSG_SIZE in Hpos.
    repeat split; try done. lia.
  - apply (data_bytes_app [b] bs) in Hd as [Hb Hd].
    unfold data_bytes in Hb. simpl in Hb. rewrite andb_true_r in Hb.
    apply negb_true_iff in Hb.
    pose proof Hst as (Hlen & Hpos & _).
    change (Z.to_nat MSG_SIZE) with 32%nat in Hlen. unfold MSG_SIZE in Hpos.
    destruct (on_byte_inv m b st Hst) as (st1 & E1 & Hst1).
    destruct (IH st1 Hst1 Hd) as (st' & E' & Hp' & Hq' & Ho' & Hb').
    exists st'. cbn [rx_loop]. rewrite E1. cbn [mbind option_bind].
    split; [done|].
    unfold on_byte in E1. rewrite Hb in E1.
    rewrite to_size_t_small in E1 by (unfold INT_MAX; lia).
    destruct (Z.ltb_spec (rx_buf_pos st) (MSG_SIZE - 1)) as [Hlt|Hge].
    + unfold MSG_SIZE in Hlt.
      rewrite store_in_bounds in E1 by lia. cbn [mbind option_bind] in E1.
      rewrite wrap_int_id in E1 by (unfold in_int, INT_MIN, INT_MAX; lia).
      injection E1 as <-. cbn [rx_buf rx_buf_pos uart_msgq uart_out] in *.
      replace (Z.to_nat (31 - rx_buf_pos st))
        with (S (Z.to_nat (31 - (rx_buf_pos st + 1)))) by lia.
      cbn [take length].
      repeat split.
      * lia.
      * done.
      * rewrite Ho', <- app_assoc. done.
      * rewrite Hb'.
        replace (Z.to_nat (rx_buf_pos st + 1))
          with (S (Z.to_nat (rx_buf_pos st))) by lia.
        rewrite take_store by lia. by rewrite <- app_assoc.
    + unfold MSG_SIZE in Hge. injection E1 as <-.
      assert (rx_buf_pos st = 31) as E31 by lia.
      rewrite E31 in *. cbn [take length] in *.
      change (Z.to_nat (31 - 31)) with 0%nat in *.
      rewrite take_0 in *.
      repeat split; try done. lia.
Qed.

Lemma rx_loop_data_run_witness :
  exists st',
    rx_loop ILP32 (replicate 40 (chr "7")) uart_init = Some st'
    /\ rx_buf_pos st' = Z.min (rx_buf_pos uart_init + Z.of_nat 40) 31
    /\ uart_msgq st' = uart_msgq uart_init
    /\ uart_out st'
       = uart_out uart_init
         ++ take (Z.to_nat (31 - rx_buf_pos uart_init)) (replicate 40 (chr "7"))
    /\ take (Z.to_nat (rx_buf_pos st')) (rx_buf st')
       = take (Z.to_nat (rx_buf_pos uart_init)) (rx_buf uart_init)
         ++ take (Z.to_nat (31 - rx_buf_pos uart_init))
              (replicate 40 (chr "7")).
Proof.
  apply (rx_loop_data_run ILP32 (replicate 40 (chr "7")) uart_init).
  - apply uart_init_inv.
  - reflexivity.
Defined.

(** ** Lines, one after the other *)

(** Terminators that find the cursor on 0 change nothing. *)
Lemma rx_loop_idle m ts st :
  forallb is_terminator ts = true -> rx_buf_pos st = 0 ->
  rx_loop m ts st = Some st.
Proof.
  induction ts as [|t ts IH]; intros Ht Hp; [done|].
  simpl in Ht. apply andb_prop in Ht as [Ht Hts].
  cbn [rx_loop]. rewrite on_byte_idle by done. cbn [mbind option_bind].
  by apply IH.
Qed.

Lemma posted_length_msg (l buf : list Z) :
  length buf = Z.to_nat MSG_SIZE -> (length l <= 31)%nat ->
  length (l ++ NUL :: drop (S (length l)) buf) = Z.to_nat MSG_SIZE.
Proof.
  change (Z.to_nat MSG_SIZE) with 32%nat. intros Hb Hl.
  rewrite length_app. simpl. rewrite length_drop. lia.
Qed.

Lemma posted_c_string ls : forall buf,
  Forall nonnul ls -> map c_string (posted buf ls) = ls.
Proof.
  induction ls as [|l ls IH]; intros buf Hls; [done|].
  apply Forall_cons in Hls as [Hl Hls]. cbn [posted map].
  by rewrite c_string_nonnul, IH.
Qed.

Lemma posted_length ls : forall buf, length (posted buf ls) = length ls.
Proof.
  induction ls as [|l ls IH]; intros buf; [done|].
  cbn [posted length]. by rewrite IH.
Qed.

(** X8: lines of 1 to 31 data bytes, each followed by one or more
    terminators (CR, LF, CR LF, ...), on an empty buffer and a queue with
    room for all of them: one message is posted for each line, in order,
    each written over the message before; lines without a NUL byte are read
    back from the messages as typed; every line is echoed and followed by
    one CR LF. *)
Theorem rx_loop_lines m ls ts : forall buf q out ws,
  length buf = Z.to_nat MSG_SIZE -> Forall line_ok ls ->
  (length q + length ls <= MSGQ_MAX)%nat ->
  ts <> [] -> forallb is_terminator ts = true ->
  exists st',
    rx_loop m (typed ls ts) (Uart buf 0 q out ws) = Some st'
    /\ rx_buf_pos st' = 0
    /\ uart_msgq st' = q ++ posted buf ls
    /\ uart_out st' = out ++ typed ls [ch_cr; ch_lf]
    /\ (Forall nonnul ls -> map c_string (posted buf ls) = ls).
Proof.
  induction ls as [|l ls IH]; intros buf q out ws Hb Hls Hq Hne Hts.
  - eexists. split; [done|]. simpl. by rewrite !app_nil_r.
  - apply Forall_cons in Hls as [(Hd & Hl & Hlen) Hls].
    destruct ts as [|t ts']; [done|].
    simpl in Hts. apply andb_prop in Hts as [Ht Hts'].
    cbn [length] in Hq.
    set (msg := l ++ NUL :: drop (S (length l)) buf).
    assert (Hmsg : length msg = Z.to_nat MSG_SIZE) by (by apply posted_length_msg).
    destruct (IH msg (q ++ [msg]) (out ++ l ++ [ch_cr; ch_lf])
                (ws ++ data_writes 0 l ++ [WriteNul (Z.of_nat (length l))]))
      as (st' & E & Hp & Hm & Ho & _);
      [done | done | rewrite length_app; simpl; lia | done
      | simpl; by rewrite Ht |].
    exists st'. unfold typed in *. cbn [map concat posted].
    replace ((l ++ t :: ts') ++ concat (map (fun l0 => l0 ++ t :: ts') ls))
      with ((l ++ [t]) ++ ts' ++ concat (map (fun l0 => l0 ++ t :: ts') ls))
      by (by rewrite <- !app_assoc).
    rewrite rx_loop_app, rx_loop_line by (done || lia).
    cbn [mbind option_bind]. rewrite rx_loop_app, rx_loop_idle by done.
    cbn [mbind option_bind]. fold msg. rewrite E.
    split; [done|]. split; [done|]. split; [by rewrite Hm, <- app_assoc|].
    split; [by rewrite Ho, <- !app_assoc|].
    intros Hn. exact (posted_c_string (l :: ls) buf Hn).
Qed.

Lemma rx_loop_lines_witness :
  exists st',
    rx_loop ILP32 (typed [str "1+2"; str "10 / 2"] [ch_cr; ch_lf]) uart_init
    = Some st'
    /\ rx_buf_pos st' = 0
    /\ uart_msgq st'
       = [] ++ posted (replicate 32 NUL) [str "1+2"; str "10 / 2"]
    /\ uart_out st' = [] ++ typed [str "1+2"; str "10 / 2"] [ch_cr; ch_lf]
    /\ (Forall nonnul [str "1+2"; str "10 / 2"] ->
        map c_string (posted (replicate 32 NUL) [str "1+2"; str "10 / 2"])
        = [str "1+2"; str "10 / 2"]).
Proof.
  apply (rx_loop_lines ILP32 [str "1+2"; str "10 / 2"] [ch_cr; ch_lf]
           (replicate 32 NUL) [] [] []).
  - reflexivity.
  - repeat constructor; (reflexivity || discriminate || simpl; lia).
  - unfold MSGQ_MAX. simpl. lia.
  - discriminate.
  - reflexivity.
Defined.

Example posted_over_earlier_line :
  posted (replicate 32 NUL) [str "10 / 2"; str "1+2"]
  = [str "10 / 2" ++ replicate 26 NUL;
     str "1+2" ++ NUL :: str " 2" ++ replicate 26 NUL].
Proof. reflexivity. Qed.

(** ** A full queue *)

(** A line and its terminator, whatever the queue holds. *)
Lemma rx_loop_line_put m bs t buf q out ws :
  length buf = Z.to_nat MSG_SIZE -> line_ok bs -> is_terminator t = true ->
  let msg := bs ++ NUL :: drop (S (length bs)) buf in
  rx_loop m (bs ++ [t]) (Uart buf 0 q out ws)
  = Some (Uart msg 0 (k_msgq_put q msg) (out ++ bs ++ [ch_cr; ch_lf])
            (ws ++ data_writes 0 bs ++ [WriteNul (Z.of_nat (length bs))])).
Proof.
  intros Hb (Hd & Hne & Hl) Ht msg.
  change (Z.to_nat MSG_SIZE) with 32%nat in Hb.
  assert (exists pre x post, buf = pre ++ x :: post /\ length pre = length bs)
    as (pre & x & post & -> & Hpre).
  { exists (take (length bs) buf).
    destruct (drop (length bs) buf) as [|x post] eqn:Edrop.
    - apply (f_equal length) in Edrop. rewrite length_drop in Edrop.
      simpl in Edrop. lia.
    - exists x, post. rewrite <- Edrop, take_drop, length_take. split; [done|lia]. }
  assert (Hmsg : msg = bs ++ NUL :: post).
  { unfold msg. rewrite <- Hpre.
    replace (S (length pre)) with (length (pre ++ [x]))
      by (rewrite length_app; simpl; lia).
    replace (pre ++ x :: post) with ((pre ++ [x]) ++ post)
      by (by rewrite <- app_assoc).
    by rewrite drop_app_length. }
  rewrite Hmsg, rx_loop_app.
  pose proof (rx_loop_data m bs [] pre (x :: post) q out ws Hd) as H.
  simpl in H. change (Z.of_nat 0) with 0 in H. rewrite H by lia.
  cbn [mbind option_bind rx_loop].
  rewrite on_byte_terminator by done. cbn [mbind option_bind].
  by rewrite <- !app_assoc.
Qed.

(** X9: a line that is completed while the queue holds 10 messages is lost:
    it is echoed, CR LF is sent and the cursor returns to 0 as for any line,
    but the queue is left as it is; the next line is posted as soon as there
    is room. *)
Theorem rx_loop_line_lost m bs t buf q out ws :
  length buf = Z.to_nat MSG_SIZE -> length q = MSGQ_MAX ->
  line_ok bs -> is_terminator t = true ->
  exists st',
    rx_loop m (bs ++ [t]) (Uart buf 0 q out ws) = Some st'
    /\ uart_msgq st' = q
    /\ rx_buf_pos st' = 0
    /\ uart_out st' = out ++ bs ++ [ch_cr; ch_lf]
    /\ c_string (rx_buf st') = c_string (bs ++ [NUL])
    /\ forall msg q' bs' t',
         q = msg :: q' -> line_ok bs' -> is_terminator t' = true ->
         exists st'',
           rx_loop m (bs' ++ [t'])
             (Uart (rx_buf st') (rx_buf_pos st') q' (uart_out st')
                (rx_writes st'))
           = Some st''
           /\ exists msg', uart_msgq st'' = q' ++ [msg']
                           /\ c_string msg' = c_string (bs' ++ [NUL]).
Proof.
  intros Hb Hq Hbs Ht.
  pose proof (posted_length_msg bs buf Hb (proj2 (proj2 Hbs))) as Hmsg.
  eexists. split; [by apply rx_loop_line_put|].
  cbn [uart_msgq rx_buf_pos uart_out rx_buf rx_writes].
  rewrite k_msgq_put_full by done.
  assert (Hc : forall (l tl : list Z), c_string (l ++ NUL :: tl)
                                       = c_string (l ++ [NUL])).
  { intros l tl. induction l as [|c l IH]; simpl; [done|].
    destruct (c =? NUL); [done|]. by rewrite IH. }
  repeat split; try done.
  intros msg q' bs' t' -> Hbs' Ht'. simpl in Hq.
  eexists. split; [by apply rx_loop_line_put|].
  cbn [uart_msgq]. eexists. split; [|apply Hc].
  apply k_msgq_put_room; [unfold MSGQ_MAX in *; lia|].
  apply posted_length_msg; [done|]. by destruct Hbs' as (_ & _ & ?).
Qed.

Lemma rx_loop_line_lost_witness :
  exists st',
    rx_loop ILP32 (str "1+2" ++ [ch_cr])
      (Uart (replicate 32 NUL) 0 (replicate 10 (replicate 32 NUL)) [] [])
    = Some st'
    /\ uart_msgq st' = replicate 10 (replicate 32 NUL)
    /\ rx_buf_pos st' = 0
    /\ uart_out st' = [] ++ str "1+2" ++ [ch_cr; ch_lf]
    /\ c_string (rx_buf st') = c_string (str "1+2" ++ [NUL])
    /\ forall msg q' bs' t',
         replicate 10 (replicate 32 NUL) = msg :: q' ->
         line_ok bs' -> is_terminator t' = true ->
         exists st'',
           rx_loop ILP32 (bs' ++ [t'])
             (Uart (rx_buf st') (rx_buf_pos st') q' (uart_out st')
                (rx_writes st'))
           = Some st''
           /\ exists msg', uart_msgq st'' = q' ++ [msg']
                           /\ c_string msg' = c_string (bs' ++ [NUL]).
Proof.
  apply (rx_loop_line_lost ILP32 (str "1+2") ch_cr (replicate 32 NUL)
           (replicate 10 (replicate 32 NUL)) [] []).
  - reflexivity.
  - reflexivity.
  - split; [reflexivity|]. split; [discriminate | simpl; lia].
  - reflexivity.
Defined.

(** ** What every message looks like *)

Lemma data_bytes_insert (buf : list Z) (i : nat) (v : Z) :
  data_bytes buf -> is_terminator v = false -> data_bytes (<[i := v]> buf).
Proof.
  unfold data_bytes. intros Hb Hv. revert i.
  induction buf as [|c buf IH]; intros i; [done|].
  simpl in Hb. apply andb_prop in Hb as [Hc Hb].
  destruct i as [|i]; simpl.
  - by rewrite Hv, Hb.
  - by rewrite Hc, IH.
Qed.

Lemma buf_ok_store (buf : list Z) (i : nat) (v : Z) :
  buf_ok buf -> is_terminator v = false -> (i = 31%nat -> v = NUL) ->
  buf_ok (<[i := v]> buf).
Proof.
  intros (Hlen & Hlast & Hd) Hv Hi.
  change (Z.to_nat MSG_SIZE) with 32%nat in *.
  split; [by rewrite length_insert|]. split; [|by apply data_bytes_insert].
  rewrite last_lookup, length_insert, Hlen in *. simpl in *.
  destruct (Nat.eq_dec i 31%nat) as [->|Hne].
  - rewrite Hi by done. apply list_lookup_insert_eq. lia.
  - by rewrite list_lookup_insert_ne.
Qed.

Lemma on_byte_buf_ok m c st st' :
  rx_inv st -> buf_ok (rx_buf st) -> Forall buf_ok (uart_msgq st) ->
  on_byte m c st = Some st' ->
  buf_ok (rx_buf st') /\ Forall buf_ok (uart_msgq st').
Proof.
  intros (Hlen & Hpos & _) Hbuf Hq.
  change (Z.to_nat MSG_SIZE) with 32%nat in Hlen. unfold MSG_SIZE in Hpos.
  unfold on_byte. destruct (is_terminator c) eqn:Hc.
  - destruct (Z.eqb_spec (rx_buf_pos st) 0); [by intros [= <-]|].
    rewrite store_in_bounds by lia. cbn [mbind option_bind]. intros [= <-].
    cbn [rx_buf uart_msgq].
    assert (Hb' : buf_ok (<[Z.to_nat (rx_buf_pos st) := NUL]> (rx_buf st)))
      by (by apply buf_ok_store).
    split; [done|]. unfold k_msgq_put.
    destruct (length (uart_msgq st) <? MSGQ_MAX)%nat; [|done].
    apply Forall_app. split; [done|]. constructor; [|done].
    rewrite take_ge; [done|]. by destruct Hb' as (-> & _).
  - rewrite to_size_t_small by (unfold INT_MAX; lia).
    destruct (Z.ltb_spec (rx_buf_pos st) (MSG_SIZE - 1)) as [Hlt|_];
      [|by intros [= <-]].
    unfold MSG_SIZE in Hlt.
    rewrite store_in_bounds by lia. cbn [mbind option_bind]. intros [= <-].
    cbn [rx_buf uart_msgq]. split; [|done].
    apply buf_ok_store; [done | done | lia].
Qed.

Lemma rx_loop_buf_ok m fifo : forall st st',
  rx_inv st -> buf_ok (rx_buf st) -> Forall buf_ok (uart_msgq st) ->
  rx_loop m fifo st = Some st' ->
  buf_ok (rx_buf st') /\ Forall buf_ok (uart_msgq st').
Proof.
  induction fifo as [|c fifo IH]; intros st st' Hst Hb Hq; cbn [rx_loop].
  - by intros [= <-].
  - destruct (on_byte_inv m c st Hst) as (st1 & E & H1). rewrite E.
    cbn [mbind option_bind].
    destruct (on_byte_buf_ok m c st st1 Hst Hb Hq E) as [Hb1 Hq1].
    by apply IH.
Qed.

Lemma reachable_buf_ok m st :
  reachable m st -> buf_ok (rx_buf st) /\ Forall buf_ok (uart_msgq st).
Proof.
  induction 1 as [|st st' u r fifo Hst [IHb IHq] Hcb|st msg q Hst [IHb IHq] Hq].
  - split; [|constructor]. by split.
  - apply reachable_inv in Hst. unfold serial_cb in Hcb.
    destruct u; simpl in Hcb; [|by injection Hcb as <-].
    destruct r; simpl in Hcb; [|by injection Hcb as <-].
    exact (rx_loop_buf_ok m fifo st st' Hst IHb IHq Hcb).
  - cbn [rx_buf uart_msgq]. split; [done|].
    rewrite Hq in IHq. by apply Forall_cons in IHq as [_ ?].
Qed.

(** X10: in every state the program can reach, [rx_buf] and every message
    in the queue are 32 bytes long, end with a NUL and hold no CR and no LF,
    so that every message is a C string; and the queue holds at most 10
    messages. *)
Theorem reachable_messages m st :
  reachable m st ->
  buf_ok (rx_buf st)
  /\ (length (uart_msgq st) <= MSGQ_MAX)%nat
  /\ forall msg, msg ∈ uart_msgq st ->
       buf_ok msg /\ terminated msg /\ data_bytes (c_string msg).
Proof.
  intros Hst.
  destruct (reachable_buf_ok m st Hst) as [Hb Hq].
  destruct (reachable_queue_inv m st Hst) as [Hlen _].
  split; [done|]. split; [done|].
  intros msg Hmsg. rewrite Forall_forall in Hq.
  pose proof (Hq msg Hmsg) as Hok. split; [done|].
  destruct Hok as (_ & Hlast & Hd). split; [by apply last_nul_terminated|].
  clear -Hd. unfold data_bytes in *.
  induction msg as [|c msg IH]; [done|].
  simpl in *. apply andb_prop in Hd as [Hc Hd].
  destruct (c =? NUL); [done|]. simpl. by rewrite Hc, IH.
Qed.

Lemma reachable_messages_witness :
  let st := Uart (str "12+3" ++ replicate 28 NUL) 0
              [str "12+3" ++ replicate 28 NUL]
              (str "12+3" ++ [ch_cr; ch_lf])
              (data_writes 0 (str "12+3") ++ [WriteNul 4]) in
  buf_ok (rx_buf st)
  /\ (length (uart_msgq st) <= MSGQ_MAX)%nat
  /\ forall msg, msg ∈ uart_msgq st ->
       buf_ok msg /\ terminated msg /\ data_bytes (c_string msg).
Proof.
  apply (reachable_messages ILP32).
  apply (reachable_cb ILP32 uart_init _ true true (str "12+3" ++ [ch_cr; ch_lf])).
  - apply reachable_init.
  - reflexivity.
Defined.

(** ** The answers of the driving loop *)

(** X11: for every message of a reachable queue, the turn of the loop of
    [main] has no defined behaviour in two cases and no other: the message
    is a single numeral, with or without white space, that with its
    terminator fills the 32 bytes (the evaluator reads behind [tx_buf]); or
    the message is a well-formed line that, with its operands stored in
    [int]s, is [INT_MIN / -1] or [INT_MIN % -1] (the division overflows).
    For every other message the loop sends the answer that belongs to the
    outcome of one evaluation. *)
Theorem main_iteration_reachable m st msg :
  reachable m st -> msg ∈ uart_msgq st ->
  (main_iteration m msg = None
   <-> lone_operand msg \/ well_formed m msg true)
  /\ (main_iteration m msg <> None ->
      exists o, evaluate m msg = Some o
                /\ main_iteration m msg = Some (response o)).
Proof.
  intros Hst Hmsg.
  destruct (reachable_buf_ok m st Hst) as [_ Hq].
  rewrite Forall_forall in Hq. destruct (Hq msg Hmsg) as (Hlen & Hlast & _).
  rewrite main_iteration_single by done.
  unfold single_iteration, evaluate.
  destruct (eval_expression m msg 0) as [[rc v]|] eqn:E;
    cbn [mbind option_bind].
  - split; [|by eauto]. split; [done|].
    intros [(w1 & sg & ds & w2 & Hw1 & Hds & Hw2 & ->)
           |(w1 & sg1 & ds1 & w2 & o & w3 & sg2 & ds2 & w4 & tl
             & (Hw1 & Hw2 & Hw3 & Hw4) & (Hd1 & Hd2) & -> & Hov)].
    + by rewrite lone_operand_none in E.
    + destruct (op_char_class o) as (Ho1 & Ho2 & Ho3).
      rewrite eval_expression_line in E by done.
      symmetry in Hov. apply perform_operation_none with (r := 0) in Hov.
      congruence.
  - split; [|done]. split; [|done]. intros _.
    by apply (eval_expression_none_shape m msg 0).
Qed.

Lemma main_iteration_reachable_witness :
  let msg := str "12+3" ++ replicate 28 NUL in
  (main_iteration ILP32 msg = None
   <-> lone_operand msg \/ well_formed ILP32 msg true)
  /\ (main_iteration ILP32 msg <> None ->
      exists o, evaluate ILP32 msg = Some o
                /\ main_iteration ILP32 msg = Some (response o)).
Proof.
  apply (main_iteration_reachable ILP32
           (Uart (str "12+3" ++ replicate 28 NUL) 0
              [str "12+3" ++ replicate 28 NUL]
              (str "12+3" ++ [ch_cr; ch_lf])
              (data_writes 0 (str "12+3") ++ [WriteNul 4]))).
  - apply (reachable_cb ILP32 uart_init _ true true
             (str "12+3" ++ [ch_cr; ch_lf])); [apply reachable_init | reflexivity].
  - apply list_elem_of_singleton. reflexivity.
Defined.

Example main_iteration_overflow :
  main_iteration ILP32 (fresh_msg "-2147483648 / -1") = None.
Proof. reflexivity. Qed.

Lemma take_strlen buf : forall n,
  strlen buf = Some n -> take (Z.to_nat n) buf = c_string buf.
Proof.
  induction buf as [|c buf IH]; intros n; simpl; [done|].
  destruct (c =? NUL); [by intros [= <-]|].
  destruct (strlen buf) as [k|] eqn:E; cbn [mbind option_bind]; [|done].
  intros [= <-].
  assert (0 <= k).
  { clear -E. revert k E. induction buf as [|c buf IH]; intros k; simpl; [done|].
    destruct (c =? NUL); [intros [= <-]; lia|].
    destruct (strlen buf) as [j|]; cbn [mbind option_bind]; [|done].
    intros [= <-]. specialize (IH j eq_refl). lia. }
  replace (Z.to_nat (k + 1)) with (S (Z.to_nat k)) by lia.
  cbn [take]. by rewrite IH.
Qed.

(** X12: [print_uart] sends the bytes of the string in [buf], without the
    terminator and without what follows it, and then CR LF when [endl] is
    not 0; it is undefined exactly when [buf] holds no NUL. *)
Theorem print_uart_sends buf endl :
  (terminated buf ->
   print_uart buf endl
   = Some (c_string buf ++ if endl =? 0 then [] else [ch_cr; ch_lf]))
  /\ (print_uart buf endl = None <-> ~ terminated buf).
Proof.
  unfold print_uart, terminated. split.
  - intros [n Hn]. rewrite Hn. cbn [mbind option_bind].
    rewrite (take_strlen _ _ Hn). by destruct (endl =? 0).
  - destruct (strlen buf) as [n|]; cbn [mbind option_bind].
    + split; [done|]. intros H. destruct H. by exists n.
    + split; [|done]. by intros _ [n Hn].
Qed.

Lemma print_uart_sends_witness :
  print_uart (cstr "Division by zero!" ++ str "stale") 0
  = Some (c_string (cstr "Division by zero!" ++ str "stale")
          ++ if 0 =? 0 then [] else [ch_cr; ch_lf]).
Proof.
  apply (print_uart_sends (cstr "Division by zero!" ++ str "stale") 0).
  eexists. reflexivity.
Defined.

(** X13: for a result in the range of [int], ["Result: %d"] with its
    terminator takes at most 20 bytes: in an array of 20 bytes or more, and
    so in the 32 bytes of [tx_buf], [sprintf] stays inside the array, keeps
    its length, and leaves the string ["Result: "] followed by the number. *)
Theorem sprintf_result_fits buf v :
  in_int v -> (20 <= length buf)%nat ->
  exists buf',
    sprintf_result buf v = Some buf'
    /\ length buf' = length buf
    /\ c_string buf' = str "Result: " ++ decimal v
    /\ (length (c_string buf') <= 19)%nat.
Proof.
  intros Hv Hlen. pose proof (decimal_length v Hv) as Hd.
  unfold sprintf_result.
  set (text := str "Result: " ++ decimal v ++ [NUL]).
  assert (Ht : length text = (9 + length (decimal v))%nat).
  { unfold text. rewrite !length_app. simpl. lia. }
  destruct (Nat.leb_spec (length text) (length buf)); [|lia].
  eexists. split; [done|].
  assert (Hc : c_string (text ++ drop (length text) buf)
               = str "Result: " ++ decimal v).
  { unfold text. rewrite (app_assoc (str "Result: ")), <- app_assoc.
    cbn [app]. apply c_string_nonnul, Forall_app.
    split; [by repeat constructor | apply decimal_nonnul]. }
  split; [rewrite length_app, length_drop; lia|].
  split; [done|]. rewrite Hc, length_app. simpl. lia.
Qed.

Lemma sprintf_result_fits_witness :
  exists buf',
    sprintf_result (fresh_msg "-2147483648 - 0") INT_MIN = Some buf'
    /\ length buf' = length (fresh_msg "-2147483648 - 0")
    /\ c_string buf' = str "Result: " ++ decimal INT_MIN
    /\ (length (c_string buf') <= 19)%nat.
Proof.
  apply (sprintf_result_fits (fresh_msg "-2147483648 - 0") INT_MIN).
  - vm_compute; split; discriminate.
  - vm_compute. lia.
Defined.

(** ** From the keyboard to the answer *)

Lemma isdigit_data c : isdigit c = true -> is_terminator c = false.
Proof.
  intros H%isdigit_range. unfold is_terminator, ch_lf, ch_cr.
  destruct (Z.eqb_spec c 10); [lia|]. by destruct (Z.eqb_spec c 13); [lia|].
Qed.

Lemma decimal_data_bytes z : data_bytes (decimal z).
Proof.
  destruct (decimal_numeral z) as (-> & [_ Hd] & _).
  apply data_bytes_app. split; [by destruct (decimal_sign z)|].
  unfold data_bytes. induction (decimal_digits z) as [|c ds IH]; [done|].
  simpl in *. apply andb_prop in Hd as [Hc Hd].
  by rewrite (isdigit_data c Hc), IH.
Qed.

Lemma eval_expression_decimal_line m a o b tl r :
  in_int a -> in_int b ->
  eval_expression m
    (decimal a ++ ch_space :: op_char o :: ch_space :: decimal b
       ++ NUL :: tl) r
  = perform_operation a b (op_char o) r.
Proof.
  intros Ha Hb.
  destruct (decimal_numeral a) as (-> & Hda & Hva).
  destruct (decimal_numeral b) as (-> & Hdb & Hvb).
  destruct (op_char_class o) as (Ho1 & Ho2 & Ho3).
  pose proof (eval_expression_line m [] (decimal_sign a) (decimal_digits a)
                [ch_space] (op_char o) [ch_space] (decimal_sign b)
                (decimal_digits b) [] tl r) as H.
  unfold expression in H. rewrite <- !app_assoc in H. simpl in H.
  rewrite <- !app_assoc in H. simpl in H.
  rewrite H by done. rewrite !operand_of_in_int by (by rewrite ?Hva, ?Hvb).
  by rewrite Hva, Hvb.
Qed.

(** X14: an expression [<a> <op> <b>] with [a] and [b] in the range of
    [int], other than [INT_MIN / -1] and [INT_MIN % -1], typed on an empty
    buffer and ended by CR or LF while the queue has room: it is echoed and
    followed by CR LF, one message is posted, and on that message the loop
    of [main] answers ["Division by zero!"] when [op] is [/] or [%] and [b]
    is 0, and ["Result: "] with [a op b] otherwise. *)
Theorem calculator_answer m a o b t buf q out ws :
  length buf = Z.to_nat MSG_SIZE -> (length q < MSGQ_MAX)%nat ->
  in_int a -> in_int b ->
  (divides o = true -> ~ (a = INT_MIN /\ b = -1)) ->
  is_terminator t = true ->
  let line := decimal a ++ ch_space :: op_char o :: ch_space :: decimal b in
  exists st' msg,
    feed m (line ++ [t]) (Uart buf 0 q out ws) = Some st'
    /\ uart_msgq st' = q ++ [msg]
    /\ uart_out st' = out ++ line ++ [ch_cr; ch_lf]
    /\ main_iteration m msg
       = Some (response (if divides o && (b =? 0) then DivisionByZero
                         else Success (int_op o a b))).
Proof.
  intros Hbuf Hq Ha Hb Hov Ht line.
  assert (Hline : line_ok line).
  { unfold line. split; [|split].
    - apply data_bytes_app. split; [apply decimal_data_bytes|].
      change (data_bytes ([ch_space; op_char o; ch_space] ++ decimal b)).
      apply data_bytes_app. split; [by destruct o | apply decimal_data_bytes].
    - destruct (decimal_numeral a) as (-> & [Hne _] & _).
      unfold numeral. by destruct (decimal_sign a), (decimal_digits a).
    - pose proof (decimal_length a Ha). pose proof (decimal_length b Hb).
      rewrite length_app. simpl. lia. }
  destruct Hline as (Hd & Hne & Hlen).
  set (msg := line ++ NUL :: drop (S (length line)) buf).
  assert (Hmsg : length msg = Z.to_nat MSG_SIZE) by (by apply posted_length_msg).
  eexists. exists msg. rewrite feed_rx_loop.
  split; [by apply rx_loop_line|]. split; [done|]. split; [done|].
  rewrite main_iteration_single by done.
  unfold single_iteration, evaluate, msg, line.
  rewrite <- app_assoc. cbn [app].
  rewrite eval_expression_decimal_line by done.
  destruct (divides o && (b =? 0)) eqn:Ez.
  - apply andb_prop in Ez as [Ho Hz]. apply Z.eqb_eq in Hz as ->.
    by destruct o.
  - rewrite perform_operation_op; [done | | done].
    intros Ho ->. by rewrite Ho in Ez.
Qed.

Lemma calculator_answer_witness :
  exists st' msg,
    feed ILP32 (str "10 / 2" ++ [ch_cr]) uart_init = Some st'
    /\ uart_msgq st' = [] ++ [msg]
    /\ uart_out st' = [] ++ str "10 / 2" ++ [ch_cr; ch_lf]
    /\ main_iteration ILP32 msg
       = Some (response (if divides Div && (2 =? 0) then DivisionByZero
                         else Success (int_op Div 10 2))).
Proof.
  apply (calculator_answer ILP32 10 Div 2 ch_cr (replicate 32 NUL) [] [] []).
  - reflexivity.
  - unfold MSGQ_MAX. simpl. lia.
  - vm_compute; split; discriminate.
  - vm_compute; split; discriminate.
  - intros _ [H _]. discriminate H.
  - reflexivity.
Defined.

(** ** A single operand in [tx_buf] *)

(** The operator is none of the five and the bytes behind it hold a C
    string. *)
Lemma reject_operator_string m expr r v1 e1 op e2 :
  terminated expr -> strtol m expr = Some (v1, e1) ->
  skip_space e1 = Some (op :: e2) -> terminated e2 -> ~ is_operator op ->
  eval_expression m expr r = Some (ERR_INVALID_EXPR, r).
Proof.
  intros [n0 Hn0] E1 K1 Ht2 Hop.
  destruct (strtol_terminated m expr (ex_intro _ n0 Hn0)) as (v & q & E & [n1 Hn1]).
  rewrite E1 in E. injection E as <- <-.
  destruct (strtol_terminated m e2 Ht2) as (v2 & e3 & E2 & Ht3).
  destruct Ht2 as [n2 Hn2]. pose proof Ht3 as [n3 Hn3].
  destruct (skip_space_terminated e3 Ht3) as (c & q & K3 & _ & _).
  unfold eval_expression. rewrite E1. cbn [mbind option_bind].
  rewrite Hn1, Hn0. cbn [mbind option_bind]. destruct (n1 =? n0); [done|].
  rewrite K1. cbn [mbind option_bind head tail]. rewrite E2.
  cbn [mbind option_bind]. rewrite Hn3, Hn2. cbn [mbind option_bind].
  destruct (n3 =? n2); [done|].
  rewrite K3. cbn [mbind option_bind head]. destruct (negb (c =? NUL)); [done|].
  destruct (perform_operation_cases (wrap_int v1) (wrap_int v2) op r)
    as [(? & _ & _ & ?)|[(_ & _ & [-> | ->])|[(-> & _)|(_ & [-> | ->] & _)]]];
    [done| | |done| |].
  - destruct Hop. by exists Div.
  - destruct Hop. by exists Mod.
  - destruct Hop. by exists Div.
  - destruct Hop. by exists Mod.
Qed.

(** X15: a line that is a single numeral, with or without white space
    around it, in an array that goes on behind the terminator of the line
    and ends with a NUL: [eval_expression] takes the terminator for the
    operator, reads on in the bytes behind it, and returns
    [ERR_INVALID_EXPR] whatever these bytes are. *)
Theorem lone_operand_invalid m w1 sg ds w2 tl r :
  whitespace w1 -> digits ds -> whitespace w2 -> last tl = Some NUL ->
  eval_expression m (w1 ++ numeral sg ds ++ w2 ++ NUL :: tl) r
  = Some (ERR_INVALID_EXPR, r).
Proof.
  intros Hw1 Hd Hw2 Htl.
  assert (isdigit NUL = false) as HN by done.
  destruct (after_space_nondigit w2 NUL tl Hw2 HN) as (c & p & E & Hc).
  apply (reject_operator_string m _ r (clamp_long m (numeral_value sg ds))
           (w2 ++ NUL :: tl) NUL tl).
  - exists (Z.of_nat (length (w1 ++ numeral sg ds ++ w2))).
    rewrite <- strlen_nonnul with (tl := tl).
    + by rewrite <- !app_assoc.
    + apply Forall_app. split; [by apply whitespace_nonnul|].
      apply Forall_app. split; [by apply numeral_nonnul|by apply whitespace_nonnul].
  - rewrite E. by apply strtol_numeral.
  - by apply skip_space_app.
  - by apply last_nul_terminated.
  - intros [[] H]; discriminate H.
Qed.

Lemma lone_operand_invalid_witness :
  eval_expression ILP32 (str "5" ++ NUL :: str "/ 2" ++ [NUL]) 9
  = Some (ERR_INVALID_EXPR, 9).
Proof.
  apply (lone_operand_invalid ILP32 [] NoSign (str "5") [] (str "/ 2" ++ [NUL]) 9).
  - reflexivity.
  - split; [discriminate | reflexivity].
  - reflexivity.
  - reflexivity.
Defined.

(** ** The shape of an answer *)

(** X16: whatever the 32 bytes of the message are, when the turn of the
    loop of [main] is defined it sends exactly one line: 1 to 19 bytes,
    none of them NUL, CR or LF, followed by CR LF. *)
Theorem main_iteration_one_line m tx_buf out :
  length tx_buf = Z.to_nat MSG_SIZE ->
  main_iteration m tx_buf = Some out ->
  exists body,
    out = body ++ [ch_cr; ch_lf]
    /\ data_bytes body /\ nonnul body
    /\ (1 <= length body <= 19)%nat.
Proof.
  intros Hlen. rewrite main_iteration_single by done.
  unfold single_iteration, evaluate.
  destruct (eval_expression m tx_buf 0) as [[rc v]|] eqn:E;
    cbn [mbind option_bind]; [|done].
  intros [= <-]. unfold response.
  destruct (Z.eqb_spec rc ERR_NONE) as [->|_].
  - apply eval_expression_success_range in E.
    pose proof (decimal_length v E) as Hl.
    eexists. split; [done|]. split; [|split].
    + apply data_bytes_app. split; [done | apply decimal_data_bytes].
    + apply Forall_app. split; [by repeat constructor | apply decimal_nonnul].
    + rewrite length_app. simpl. lia.
  - destruct (rc =? ERR_ZERO_DIV); eexists; (split; [done|]);
      (split; [done|]); (split; [by repeat constructor | simpl; lia]).
Qed.

Lemma main_iteration_one_line_witness :
  exists body,
    str "Result: -2147483648" ++ [ch_cr; ch_lf] = body ++ [ch_cr; ch_lf]
    /\ data_bytes body /\ nonnul body
    /\ (1 <= length body <= 19)%nat.
Proof.
  apply (main_iteration_one_line ILP32 (fresh_msg "-2147483647 - 1")
           (str "Result: -2147483648" ++ [ch_cr; ch_lf])); reflexivity.
Defined.
